(** * obo_parser: a shallow embedding of [obo_parser.py] and its properties

    The development models the in-memory ontology pipeline of
    [obo_parser.py]: the stanza parser ([parse_obo_format]), the derivation
    of the inverse parent relation ([_compute_children_column]), the root
    walk ([_compute_root_id]), the breadth-first generator ([get_substree])
    and the category propagation ([compute_category_column]).

    Python values are modelled as they appear in the program:
    - a tag value is either a [str] or a [list] of [str];
    - a record (a [defaultdict(list)]) is a finite map from tags to values;
    - the store (a [collections.OrderedDict]) is an association list in
      insertion order, read with [od_get] and written with [od_set];
    - exceptions are an explicit outcome; loops that Python writes as
      [while] take a fuel argument and report [OutOfFuel] separately. *)

From stdpp Require Import base option list strings gmap sorting.
From Stdlib Require Import Ascii.

(** ** Outcomes of Python computations *)

Inductive exn : Type :=
  | ValueError (msg : string)
  | KeyError (key : string)
  | TypeError
  | AttributeError.

Inductive outcome (A : Type) : Type :=
  | Ok (a : A)
  | Raise (e : exn)
  | OutOfFuel.

Arguments Ok {A} a.
Arguments Raise {A} e.
Arguments OutOfFuel {A}.

Definition obind {A B : Type} (m : outcome A) (k : A -> outcome B) : outcome B :=
  match m with
  | Ok a => k a
  | Raise e => Raise e
  | OutOfFuel => OutOfFuel
  end.

Definition omap {A B : Type} (f : A -> B) (m : outcome A) : outcome B :=
  obind m (fun a => Ok (f a)).

Notation "'let!' p ':=' m 'in' k" := (obind m (fun p => k))
  (at level 10, p pattern, m at level 100, k at level 200).

(** ** Python [str] primitives used by the parser *)

Module Py.

Definition newline : ascii := ascii_of_nat 10.

(** The characters removed by [str.strip()] without argument
    ([string.whitespace] of a byte string). *)
Definition whitespace : list ascii :=
  [ascii_of_nat 32; ascii_of_nat 9; ascii_of_nat 10;
   ascii_of_nat 11; ascii_of_nat 12; ascii_of_nat 13].

Definition mem (c : ascii) (cs : list ascii) : bool :=
  existsb (Ascii.eqb c) cs.

(** [s.startswith(p)] *)
Definition startswith (p s : string) : bool := String.prefix p s.

(** [s.lstrip(cs)] *)
Fixpoint lstrip (cs : list ascii) (s : string) : string :=
  match s with
  | EmptyString => EmptyString
  | String c s' => if mem c cs then lstrip cs s' else s
  end.

(** [s.rstrip(cs)] *)
Fixpoint rstrip (cs : list ascii) (s : string) : string :=
  match s with
  | EmptyString => EmptyString
  | String c s' =>
      match rstrip cs s' with
      | EmptyString => if mem c cs then EmptyString else String c EmptyString
      | t => String c t
      end
  end.

(** [s.strip(cs)] *)
Definition strip (cs : list ascii) (s : string) : string :=
  rstrip cs (lstrip cs s).

(** [s.split(c)[0]]: the text before the first occurrence of [c]. *)
Fixpoint split_head (c : ascii) (s : string) : string :=
  match s with
  | EmptyString => EmptyString
  | String a s' => if Ascii.eqb a c then EmptyString else String a (split_head c s')
  end.

(** The text after the first occurrence of [c], when there is one. *)
Fixpoint after_first (c : ascii) (s : string) : option string :=
  match s with
  | EmptyString => None
  | String a s' => if Ascii.eqb a c then Some s' else after_first c s'
  end.

(** Iterating over a [str] gives its characters as one-character
    strings. *)
Fixpoint chars (s : string) : list string :=
  match s with
  | EmptyString => []
  | String c s' => String c EmptyString :: chars s'
  end.

End Py.

(** ** Records and the ordered store *)

(** A tag holds a [str] (tags that occur once per stanza) or a [list] of
    [str] (all other tags, and the derived ['children']). *)
Inductive value : Type :=
  | Single (s : string)
  | Multi (l : list string).

#[global] Instance value_eq_dec : EqDecision value.
Proof. solve_decision. Defined.

(** Iterating over a value, indexing it, or taking its [len]: a list gives
    its elements, a [str] its characters. *)
Definition iter_value (v : value) : list string :=
  match v with
  | Single s => Py.chars s
  | Multi l => l
  end.

Abbreviation record := (gmap string value).

(** [collections.OrderedDict]: keys in insertion order. *)
Definition store : Type := list (string * record).

(** [d[k]] / [d.get(k)] / [k in d] *)
Fixpoint od_get (k : string) (st : store) : option record :=
  match st with
  | [] => None
  | (k', r) :: st' => if decide (k' = k) then Some r else od_get k st'
  end.

(** [d[k] = r]: an existing key keeps its position, a new key goes last. *)
Fixpoint od_set (k : string) (r : record) (st : store) : store :=
  match st with
  | [] => [(k, r)]
  | (k', r') :: st' =>
      if decide (k' = k) then (k, r) :: st' else (k', r') :: od_set k r st'
  end.

Definition od_mem (k : string) (st : store) : bool :=
  match od_get k st with Some _ => true | None => false end.

Definition od_keys (st : store) : list string := st.*1.

(** ** Module constants *)

Definition ONLY_ONE_ALLOWED_PER_STANZA : list string :=
  ["id"; "name"; "def"; "comment"].

Definition only_one_allowed (tag : string) : bool :=
  bool_decide (tag ∈ ONLY_ONE_ALLOWED_PER_STANZA).

(** ** [_confirm_id_is_valid] *)

Definition _confirm_id_is_valid (term_id : string) (st : store) (label : string)
  : outcome unit :=
  if od_mem term_id st then Ok tt
  else Raise (ValueError (label +:+ " '" +:+ term_id +:+ "' not found in ontology")).

(** ** [parse_obo_format] *)

(** [re.match("(?P<tag>[^:]+):(?P<value>[^!]+)", line)] on a line that holds
    no ['!'] any more: the tag is the non-empty text before the first
    [':'] and the value the non-empty text after it. *)
Definition match_tag_and_value (line : string) : option (string * string) :=
  let tag := Py.split_head ":" line in
  match Py.after_first ":" line with
  | None => None
  | Some rest =>
      if bool_decide (tag = "") then None
      else if bool_decide (rest = "") then None
      else Some (tag, rest)
  end.

(** Lines 106-116: what a line of a [Term] stanza contributes.  [Ok None]
    is a line skipped as empty. *)
Definition parse_tag_line (line : string) : outcome (option (string * string)) :=
  let line := Py.split_head "!" (Py.rstrip [Py.newline] line) in
  if bool_decide (String.length line = 0) then Ok None
  else
    match match_tag_and_value line with
    | None => Raise (ValueError ("Unexpected line format: " +:+ line))
    | Some (tag, value) => Ok (Some (tag, Py.strip Py.whitespace value))
    end.

(** The state of the parsing loop.  [current_record] is a reference to a
    record of the store; it is modelled by the key under which that record
    is stored. *)
Record parser_state : Type := mk_parser_state {
  obo_records_dict : store;
  current_stanza_type : option string;
  current_record : option string;
}.

Definition initial_parser_state : parser_state :=
  mk_parser_state [] None None.

(** The exception of lines 125-126.  The message joins the value the
    record holds with the new one; [str.join] accepts only strings. *)
Definition duplicate_tag_error (tag stanza : string) (held : value) (value : string)
  : exn :=
  match held with
  | Single held =>
      ValueError ("More than one '" +:+ tag +:+ "' found in " +:+ stanza
                  +:+ " stanza: " +:+ held +:+ ", " +:+ value)
  | Multi _ => TypeError
  end.

(** Lines 118-130: record one tag of the current stanza.  The set
    [all_tags] of line 122 is written and never read; it is left out. *)
Definition record_tag (tag value : string) (s : parser_state) : outcome parser_state :=
  let s :=
    if bool_decide (tag = "id") then
      mk_parser_state (od_set value ∅ (obo_records_dict s))
                      (current_stanza_type s) (Some value)
    else s in
  match current_record s with
  | None => Raise TypeError
  | Some cur =>
      match od_get cur (obo_records_dict s) with
      | None => Raise (KeyError cur)
      | Some rec =>
          if only_one_allowed tag then
            match rec !! tag with
            | Some held =>
                Raise (duplicate_tag_error tag
                         (default "None" (current_stanza_type s)) held value)
            | None =>
                Ok (mk_parser_state
                      (od_set cur (<[tag := Single value]> rec) (obo_records_dict s))
                      (current_stanza_type s) (current_record s))
            end
          else
            match rec !! tag with
            | Some (Single _) => Raise AttributeError
            | Some (Multi l) =>
                Ok (mk_parser_state
                      (od_set cur (<[tag := Multi (l ++ [value])]> rec) (obo_records_dict s))
                      (current_stanza_type s) (current_record s))
            | None =>
                Ok (mk_parser_state
                      (od_set cur (<[tag := Multi [value]]> rec) (obo_records_dict s))
                      (current_stanza_type s) (current_record s))
            end
      end
  end.

(** One iteration of [for line in lines]. *)
Definition parse_line (line : string) (s : parser_state) : outcome parser_state :=
  if Py.startswith "[" line then
    Ok (mk_parser_state (obo_records_dict s)
          (Some (Py.strip ["["%char; "]"%char; Py.newline] line))
          (current_record s))
  else if negb (bool_decide (current_stanza_type s = Some "Term")) then Ok s
  else
    let! r := parse_tag_line line in
    match r with
    | None => Ok s
    | Some (tag, value) => record_tag tag value s
    end.

Fixpoint parse_lines (lines : list string) (s : parser_state) : outcome parser_state :=
  match lines with
  | [] => Ok s
  | line :: rest => let! s' := parse_line line s in parse_lines rest s'
  end.


(** ** [_compute_children_column] *)

(** A warning of the logger: the term and its parent id that is not in the
    ontology. *)
Definition warning : Type := (string * string)%type.

(** The ['children'] list of a record as the readers see it:
    [record.get('children', [])]. *)
Definition children_of (r : record) : list string :=
  match r !! "children" with
  | Some v => iter_value v
  | None => []
  end.

(** Lines 231-240: one parent link of [term_id]. *)
Definition add_child (term_id parent_id : string) (acc : store * list warning)
  : outcome (store * list warning) :=
  let '(st, log) := acc in
  match od_get parent_id st with
  | None => Ok (st, log ++ [(term_id, parent_id)])
  | Some parent_record =>
      match parent_record !! "children" with
      | None =>
          Ok (od_set parent_id (<["children" := Multi [term_id]]> parent_record) st, log)
      | Some (Multi l) =>
          Ok (od_set parent_id (<["children" := Multi (l ++ [term_id])]> parent_record) st, log)
      | Some (Single _) => Raise AttributeError
      end
  end.

(** Lines 230-240: [for parent_id in current_record["is_a"]]. *)
Fixpoint add_children (term_id : string) (parent_ids : list string)
    (acc : store * list warning) : outcome (store * list warning) :=
  match parent_ids with
  | [] => Ok acc
  | parent_id :: rest =>
      let! acc' := add_child term_id parent_id acc in
      add_children term_id rest acc'
  end.

(** Lines 226-240: the loop over [obo_records_dict.items()].  The items are
    a snapshot of the keys with references to the records, so each record
    is read in the store as it is when its turn comes. *)
Fixpoint children_loop (items : list string) (acc : store * list warning)
  : outcome (store * list warning) :=
  match items with
  | [] => Ok acc
  | term_id :: rest =>
      match od_get term_id acc.1 with
      | None => Raise (KeyError term_id)
      | Some current_record =>
          match current_record !! "is_a" with
          | None => children_loop rest acc
          | Some parent_ids =>
              let! acc' := add_children term_id (iter_value parent_ids) acc in
              children_loop rest acc'
          end
      end
  end.

Definition _compute_children_column (st : store) : outcome (store * list warning) :=
  children_loop (od_keys st) (st, []).

(** [parse_obo_format]: the parsing loop, then the children column.  The
    warnings are what the logger received. *)
Definition parse_obo_format (lines : list string) : outcome (store * list warning) :=
  let! s := parse_lines lines initial_parser_state in
  _compute_children_column (obo_records_dict s).

(** ** [_compute_root_id] *)

(** The [while True] loop of lines 180-187. *)
Fixpoint root_walk (fuel : nat) (st : store) (term_id : string) : outcome string :=
  match fuel with
  | 0 => OutOfFuel
  | S fuel' =>
      match od_get term_id st with
      | None => Raise (KeyError term_id)
      | Some r =>
          match r !! "is_a" with
          | None => Ok term_id
          | Some parent_ids =>
              match iter_value parent_ids with
              | [] => Ok term_id
              | parent :: _ =>
                  let! _ := _confirm_id_is_valid parent st (term_id +:+ "'s parent id") in
                  root_walk fuel' st parent
              end
          end
      end
  end.

Definition _compute_root_id (fuel : nat) (st : store) : outcome (option string) :=
  match st with
  | [] => Ok None
  | (term_id, _) :: _ => omap Some (root_walk fuel st term_id)
  end.

(** ** [get_substree] *)

(** The generator runs interleaved with its consumer: after each [yield]
    the consumer's loop body acts on the yielded record, which is the
    record of the store, before the generator resumes and reads the
    record's ['children'].  [body] is that action; the result is the store
    the consumer leaves and the ids of the records yielded, in order. *)
Fixpoint get_substree_loop (fuel : nat) (body : record -> record)
    (skip_record : option (record -> bool)) (st : store)
    (ids_to_process : list string) (processed_ids : gset string)
  : outcome (store * list string) :=
  match fuel with
  | 0 => OutOfFuel
  | S fuel' =>
      match ids_to_process with
      | [] => Ok (st, [])
      | next_id :: ids_to_process =>
          match od_get next_id st with
          | None => Raise (KeyError next_id)
          | Some record =>
              if bool_decide (next_id ∈ processed_ids)
                 || match skip_record with Some skip => skip record | None => false end
              then get_substree_loop fuel' body skip_record st ids_to_process processed_ids
              else
                let record := body record in
                let st := od_set next_id record st in
                let processed_ids := {[next_id]} ∪ processed_ids in
                let child_ids := children_of record in
                let! (st', ys) :=
                  get_substree_loop fuel' body skip_record st
                    (ids_to_process ++ child_ids) processed_ids in
                Ok (st', next_id :: ys)
          end
      end
  end.

(** [for record in get_substree(st, root_id, skip_record): body(record)] *)
Definition for_in_substree (fuel : nat) (body : record -> record)
    (st : store) (root_id : string) (skip_record : option (record -> bool))
  : outcome (store * list string) :=
  let! _ := _confirm_id_is_valid root_id st "root_id" in
  get_substree_loop fuel body skip_record st [root_id] ∅.

(** [list(get_substree(st, root_id, skip_record))]: the consumer leaves the
    records as they are; the records yielded are those stored under the
    ids. *)
Definition get_substree (fuel : nat) (st : store) (root_id : string)
    (skip_record : option (record -> bool)) : outcome (list string) :=
  omap snd (for_in_substree fuel id st root_id skip_record).

(** ** [compute_category_column] *)

Definition is_category_already_assigned (r : record) : bool :=
  bool_decide (is_Some (r !! "category_id")) || bool_decide (is_Some (r !! "category_name")).

(** Lines 281-284: the body of [for record in category_subtree]. *)
Definition stamp (add_category_id_column add_category_name_column : bool)
    (category_id : string) (category_name : value) (r : record) : record :=
  let r := if add_category_id_column
           then <["category_id" := Single category_id]> r else r in
  if add_category_name_column then <["category_name" := category_name]> r else r.

(** Lines 268-284: the loop over the root's children.  Besides the store it
    returns, for each category in turn, the ids its traversal yielded. *)
Fixpoint category_loop (fuel : nat) (add_id add_name : bool)
    (root_child_ids : list string) (st : store)
  : outcome (store * list (string * list string)) :=
  match root_child_ids with
  | [] => Ok (st, [])
  | category_id :: rest =>
      match od_get category_id st with
      | None => Raise (KeyError category_id)
      | Some category_record =>
          let category_name := default (Single "") (category_record !! "name") in
          let! (st', ys) :=
            for_in_substree fuel (stamp add_id add_name category_id category_name)
              st category_id (Some is_category_already_assigned) in
          let! (st'', trace) := category_loop fuel add_id add_name rest st' in
          Ok (st'', (category_id, ys) :: trace)
      end
  end.

Definition compute_category_column (fuel : nat) (st : store) (root_id : string)
    (add_category_id_column add_category_name_column : bool) : outcome store :=
  let! _ := _confirm_id_is_valid root_id st "root_id" in
  match od_get root_id st with
  | None => Raise (KeyError root_id)
  | Some root_record =>
      let root_child_ids := children_of root_record in
      match root_child_ids with
      | [] => Ok st
      | _ =>
          omap fst (category_loop fuel add_category_id_column add_category_name_column
                      root_child_ids st)
      end
  end.

(** ** Specification vocabulary *)

Definition nl : string := String Py.newline EmptyString.

(** Every record carries its key as its ['id']. *)
Definition ids_match_keys (st : store) : Prop :=
  ∀ k r, od_get k st = Some r → r !! "id" = Some (Single k).

(** The ['id'] attribute of the record stored under [k], if any. *)
Definition id_attribute (k : string) (st : store) : option value :=
  od_get k st ≫= (λ r, r !! "id").

(** The shape of a store as [parse_obo_format] documents it: the tags that
    occur once per stanza hold a [str], all others a [list]. *)
Definition well_typed_record (r : record) : Prop :=
  ∀ tag v, r !! tag = Some v →
    if only_one_allowed tag then ∃ s, v = Single s else ∃ l, v = Multi l.

Definition well_formed_store (st : store) : Prop :=
  NoDup (od_keys st) ∧ ∀ k r, od_get k st = Some r → well_typed_record r.

(** [c in s] for a character. *)
Fixpoint contains (c : ascii) (s : string) : bool :=
  match s with
  | EmptyString => false
  | String a s' => Ascii.eqb a c || contains c s'
  end.

(** The input of the spec's parsing example. *)
Definition retinal_coloboma_lines : list string :=
  ["[Term]" +:+ nl;
   "id: HP:0000480" +:+ nl;
   "name: Retinal coloboma" +:+ nl;
   "is_a: HP:0000479 ! Abnormality of the retina" +:+ nl].

(** A [Term] stanza with two [id:] lines. *)
Definition two_id_lines : list string :=
  ["[Term]" +:+ nl; "id: A" +:+ nl; "id: B" +:+ nl].

(** *** The inverse of the declared parent links *)

(** The ids that the record [item] contributes to the children of
    [parent]: its own id, once for each occurrence of [parent] among its
    ['is_a'] values. *)
Definition declared_links (parent : string) (item : string * record) : list string :=
  match item.2 !! "is_a" with
  | Some v => (λ _, item.1) <$> filter (λ p, p = parent) (iter_value v)
  | None => []
  end.

(** All the declared links to [parent], in store order. *)
Definition derived_children (st : store) (parent : string) : list string :=
  st ≫= declared_links parent.

(** A record with [l] appended to its ['children'] list; a record that
    receives nothing is left without the key it did not have. *)
Definition with_children (l : list string) (r : record) : record :=
  match l with
  | [] => r
  | _ => <["children" := Multi (children_of r ++ l)]> r
  end.

Definition extend_children (ext : string → list string) (st : store) : store :=
  (λ item, (item.1, with_children (ext item.1) item.2)) <$> st.

(** The parent links of [item] that lead outside [st]. *)
Definition dangling_of (st : store) (item : string * record) : list warning :=
  match item.2 !! "is_a" with
  | Some v => (λ p, (item.1, p)) <$> filter (λ p, od_get p st = None) (iter_value v)
  | None => []
  end.

Definition dangling_links (st : store) : list warning := st ≫= dangling_of st.

(** ['children'], where present, is a list. *)
Definition children_are_lists (st : store) : Prop :=
  ∀ k r, od_get k st = Some r →
    r !! "children" = None ∨ ∃ l, r !! "children" = Some (Multi l).

(** Stores with the same keys in the same order whose records agree on
    every tag outside [tags]. *)
Definition same_except (tags : list string) (st st' : store) : Prop :=
  od_keys st' = od_keys st ∧
  ∀ k r, od_get k st = Some r →
    ∃ r', od_get k st' = Some r' ∧ ∀ tag, tag ∉ tags → r' !! tag = r !! tag.

(** The ['is_a'] list of a record as the loops read it. *)
Definition parents_of (r : record) : list string :=
  match r !! "is_a" with
  | Some v => iter_value v
  | None => []
  end.





(** A store with a parent link that leads nowhere. *)
Definition dangling_store : store :=
  [("B", <["is_a" := Multi ["Z"; "A"]]> (<["id" := Single "B"]> ∅));
   ("A", <["id" := Single "A"]> ∅)].

(** The tags that [compute_category_column] writes. *)
Definition category_tags : list string := ["category_id"; "category_name"].

(** The spec's example ontology: A is the root, B and C are its children,
    D is a child of both. *)
Definition diamond_lines : list string :=
  ["[Term]" +:+ nl; "id: A" +:+ nl; "name: a" +:+ nl;
   "[Term]" +:+ nl; "id: B" +:+ nl; "name: b" +:+ nl; "is_a: A ! a" +:+ nl;
   "[Term]" +:+ nl; "id: C" +:+ nl; "name: c" +:+ nl; "is_a: A ! a" +:+ nl;
   "[Term]" +:+ nl; "id: D" +:+ nl; "name: d" +:+ nl;
   "is_a: B ! b" +:+ nl; "is_a: C ! c" +:+ nl].

(** The store [parse_obo_format] builds from [diamond_lines]. *)
Definition diamond_store : store :=
  [("A", <["children" := Multi ["B"; "C"]]>
           (<["name" := Single "a"]> (<["id" := Single "A"]> ∅)));
   ("B", <["children" := Multi ["D"]]>
           (<["is_a" := Multi ["A"]]>
              (<["name" := Single "b"]> (<["id" := Single "B"]> ∅))));
   ("C", <["children" := Multi ["D"]]>
           (<["is_a" := Multi ["A"]]>
              (<["name" := Single "c"]> (<["id" := Single "C"]> ∅))));
   ("D", <["is_a" := Multi ["B"; "C"]]>
           (<["name" := Single "d"]> (<["id" := Single "D"]> ∅)))].

(** [diamond_store] after [compute_category_column] with root A. *)
Definition diamond_stamped : store :=
  [("A", <["children" := Multi ["B"; "C"]]>
           (<["name" := Single "a"]> (<["id" := Single "A"]> ∅)));
   ("B", <["category_name" := Single "b"]>
           (<["category_id" := Single "B"]>
              (<["children" := Multi ["D"]]>
                 (<["is_a" := Multi ["A"]]>
                    (<["name" := Single "b"]> (<["id" := Single "B"]> ∅))))));
   ("C", <["category_name" := Single "c"]>
           (<["category_id" := Single "C"]>
              (<["children" := Multi ["D"]]>
                 (<["is_a" := Multi ["A"]]>
                    (<["name" := Single "c"]> (<["id" := Single "C"]> ∅))))));
   ("D", <["category_name" := Single "b"]>
           (<["category_id" := Single "B"]>
              (<["is_a" := Multi ["B"; "C"]]>
                 (<["name" := Single "d"]> (<["id" := Single "D"]> ∅)))))].

(** *** The parent graph and the root walk *)

(** [p] is one of the ['is_a'] values of the record stored under [x]. *)
Definition parent_edge (st : store) (x p : string) : Prop :=
  ∃ r, od_get x st = Some r ∧ p ∈ parents_of r.

Definition is_a_acyclic (st : store) : Prop :=
  ∀ x, ¬ tc (parent_edge st) x x.

(** The exception of [_confirm_id_is_valid] for the parent of [t]. *)
Definition parent_not_found (t p : string) : exn :=
  ValueError ((t +:+ "'s parent id") +:+ " '" +:+ p +:+ "' not found in ontology").

(** The walk as the specification words it: from the current id, return it
    when its ['is_a'] is absent or empty; otherwise take the first parent,
    fail if it is not a key of the store, and continue from it. *)
Inductive resolves (st : store) : string → outcome string → Prop :=
  | resolves_root t r :
      od_get t st = Some r → parents_of r = [] → resolves st t (Ok t)
  | resolves_missing t r p ps :
      od_get t st = Some r → parents_of r = p :: ps → od_get p st = None →
      resolves st t (Raise (parent_not_found t p))
  | resolves_step t r p ps o :
      od_get t st = Some r → parents_of r = p :: ps → is_Some (od_get p st) →
      resolves st p o → resolves st t o.

(** The spec's example: X is_a Y, Y is_a Z, Z has no parent. *)
Definition xyz_store : store :=
  [("X", <["is_a" := Multi ["Y"]]> (<["id" := Single "X"]> ∅));
   ("Y", <["is_a" := Multi ["Z"]]> (<["id" := Single "Y"]> ∅));
   ("Z", <["id" := Single "Z"]> ∅)].

(** *** The children graph and the traversal *)

(** [y] is one of the ['children'] of the record stored under [x]. *)
Definition child_edge (st : store) (x y : string) : Prop :=
  ∃ r, od_get x st = Some r ∧ y ∈ children_of r.

(** Every child id is a key of the store, as after
    [_compute_children_column]. *)
Definition children_closed (st : store) : Prop :=
  ∀ x y, child_edge st x y → is_Some (od_get y st).

Definition children_ids (st : store) (x : string) : list string :=
  match od_get x st with
  | Some r => children_of r
  | None => []
  end.

(** The skip predicate applied to the record under [x]. *)
Definition skipped (skip : option (record → bool)) (st : store) (x : string) : bool :=
  match skip, od_get x st with
  | Some f, Some r => f r
  | _, _ => false
  end.

(** [y] is reached from [x] along ['children'] links through records of
    the store none of which is skipped, [x] and [y] included. *)
Inductive clean_reach (skip : option (record → bool)) (st : store) (x : string)
  : string → Prop :=
  | clean_reach_refl :
      is_Some (od_get x st) → skipped skip st x = false → clean_reach skip st x x
  | clean_reach_step y z :
      clean_reach skip st x y → child_edge st y z →
      is_Some (od_get z st) → skipped skip st z = false →
      clean_reach skip st x z.

(** The generator run to its end by a consumer that leaves the records
    alone, from any queue and set of processed ids. *)
Definition traverse (fuel : nat) (skip : option (record → bool)) (st : store)
    (queue : list string) (seen : gset string) : outcome (list string) :=
  omap snd (get_substree_loop fuel id skip st queue seen).

(** The ids of [l] that a breadth-first level yields: those not seen
    before, not skipped, at their first occurrence. *)
Fixpoint fresh (skip : option (record → bool)) (st : store)
    (l : list string) (seen : gset string) : list string :=
  match l with
  | [] => []
  | x :: l =>
      if bool_decide (x ∈ seen) || skipped skip st x then fresh skip st l seen
      else x :: fresh skip st l ({[x]} ∪ seen)
  end.

(** Breadth-first order: the output is the fresh ids of the frontier,
    followed by the output for the next frontier, which lists the children
    of those fresh ids, parent after parent, in the order of each
    ['children'] list. *)
Inductive bfs_levels (skip : option (record → bool)) (st : store)
  : list string → gset string → list string → Prop :=
  | bfs_levels_done seen : bfs_levels skip st [] seen []
  | bfs_levels_next frontier seen ys :
      frontier ≠ [] →
      bfs_levels skip st (fresh skip st frontier seen ≫= children_ids st)
        (list_to_set (fresh skip st frontier seen) ∪ seen) ys →
      bfs_levels skip st frontier seen (fresh skip st frontier seen ++ ys).

(** The number of queue entries that the records outside [seen] can still
    add. *)
Definition pending (st : store) (seen : gset string) : nat :=
  sum_list ((λ item : string * record,
               if bool_decide (item.1 ∈ seen) then 0 else length (children_of item.2)) <$> st).

Definition total_children (st : store) : nat := pending st ∅.

(** A chain R, B, C and a predicate that skips B. *)
Definition chain_store : store :=
  [("R", <["children" := Multi ["B"]]> (<["id" := Single "R"]> ∅));
   ("B", <["children" := Multi ["C"]]> (<["id" := Single "B"]> ∅));
   ("C", <["id" := Single "C"]> ∅)].

Definition skip_B (r : record) : bool :=
  bool_decide (r !! "id" = Some (Single "B")).

(** A check of [children_closed] that computes. *)
Definition children_closed_check (st : store) : bool :=
  forallb (λ item : string * record, forallb (λ c, od_mem c st) (children_of item.2)) st.

(** *** The category propagation *)

(** [f] applied to the record under [k], when there is one. *)
Definition od_alter (f : record → record) (k : string) (st : store) : store :=
  match od_get k st with
  | Some r => od_set k (f r) st
  | None => st
  end.

(** The consumer's body applied to the records under [ys], one after the
    other. *)
Definition apply_body (body : record → record) (ys : list string) (st : store) : store :=
  foldl (λ s y, od_alter body y s) st ys.

(** The record under [k] carries a category stamp. *)
Definition assigned (st : store) (k : string) : bool :=
  skipped (Some is_category_already_assigned) st k.

(** [obo_records_dict[category_id].get("name", "")] *)
Definition category_name_of (st : store) (c : string) : value :=
  default (Single "") (od_get c st ≫= λ r, r !! "name").

Definition children_acyclic (st : store) : Prop :=
  ∀ x, ¬ tc (child_edge st) x x.

(** All the ids that the passes of [category_loop] yielded. *)
Definition yielded (trace : list (string * list string)) : list string :=
  trace ≫= snd.

(** A [Term] stanza with two [name:] lines. *)
Definition two_name_lines : list string :=
  ["[Term]" +:+ nl; "id: A" +:+ nl; "name: x" +:+ nl; "name: y" +:+ nl].

(** ** [_compute_tsv_header], [write_tsv] and [convert_obo_to_tsv] *)

Definition EXCLUDE_FROM_TSV : list string :=
  ["consider"; "replaced_by"; "property_value"; "is_obsolete"; "is_anonymous"].

(** [RENAME_COLUMNS.get(column, column)] *)
Definition rename_column (column : string) : string :=
  if decide (column = "is_a") then "parent_ids"
  else if decide (column = "def") then "definition"
  else column.

(** Lines 316-325.  [all_tags] is the set of the keys of all records;
    [sorted] orders strings by their characters' codes, a prefix first,
    which is [String.le]; sorting the elements of a set gives one list
    whatever order the set hands them out in. *)
Definition _compute_tsv_header (obo_records : list record) : list string :=
  let all_tags : gset string := ⋃ (dom <$> obo_records) in
  let header := ["id"; "name"] in
  let other_columns :=
    merge_sort String.le
      (elements (all_tags ∖ list_to_set EXCLUDE_FROM_TSV ∖ list_to_set header)) in
  header ++ other_columns.

Definition tab : string := String (ascii_of_nat 9) EmptyString.

(** [sep.join(l)] *)
Fixpoint str_join (sep : string) (l : list string) : string :=
  match l with
  | [] => ""
  | [x] => x
  | x :: l' => x +:+ sep +:+ str_join sep l'
  end.

(** Lines 345-351: one cell of a row. *)
Definition tsv_cell (separator : string) (v : option value) : string :=
  match v with
  | None => ""
  | Some (Multi l) => str_join separator l
  | Some (Single s) => s
  end.

(** Lines 343-353: the row of one record, with its newline. *)
Definition tsv_row (header : list string) (separator : string) (r : record) : string :=
  str_join tab ((λ tag, tsv_cell separator (r !! tag)) <$> header) +:+ nl.

(** What [write_tsv] writes when the traversal yields the records under
    [ys]: the line of the renamed columns, then a row for each record.
    The header is that of all the records of the store. *)
Definition tsv_text (st : store) (separator : string) (ys : list string) : string :=
  let header := _compute_tsv_header st.*2 in
  (str_join tab (rename_column <$> header) +:+ nl)
  +:+ foldr (λ y text, tsv_row header separator (default ∅ (od_get y st)) +:+ text) "" ys.

(** [write_tsv]: the text written to the stream when the call completes.
    When it raises, the header line may have been written already; that
    partial output is not part of the outcome.  A [root_id] that is [None],
    the default, is looked up in the store like any other. *)
Definition write_tsv (fuel : nat) (st : store) (root_id : option string)
    (separator : string) : outcome string :=
  match root_id with
  | None => Raise (ValueError "root_id 'None' not found in ontology")
  | Some root_id =>
      let! ys := get_substree fuel st root_id None in
      Ok (tsv_text st separator ys)
  end.

(** [convert_obo_to_tsv] from the lines of the input to the text of the
    output.  Opening the input and the output and the statistics of
    [print_stats], which only logs, are left out. *)
Definition convert_obo_to_tsv (fuel : nat) (lines : list string)
    (root_id : option string) (add_category_column : bool) : outcome string :=
  let! (st, _) := parse_obo_format lines in
  let! root_id :=
    match root_id with
    | None => _compute_root_id fuel st
    | Some root_id => Ok (Some root_id)
    end in
  match root_id with
  | None => Raise (ValueError "root_id 'None' not found in ontology")
  | Some root =>
      let! _ := _confirm_id_is_valid root st "root_id" in
      let! st :=
        if add_category_column then compute_category_column fuel st root true true
        else Ok st in
      write_tsv fuel st (Some root) ", "
  end.

(** Every ['is_a'] value is a key of the store: no parent link dangles. *)
Definition parents_closed (st : store) : Prop :=
  ∀ x p, parent_edge st x p → is_Some (od_get p st).


(** A store whose root names a child that is no key. *)
Definition broken_child_store : store :=
  [("R", <["children" := Multi ["B"; "M"]]> (<["id" := Single "R"]> ∅));
   ("B", <["id" := Single "B"]> ∅)].

(** *** Vocabulary for the further properties *)

(** The strings a value holds. *)
Definition value_texts (v : value) : list string :=
  match v with
  | Single s => [s]
  | Multi l => l
  end.

(** No key, tag or value of the store contains the comment delimiter, and
    no tag contains a colon. *)
Definition comment_free (st : store) : Prop :=
  ∀ k r, od_get k st = Some r →
    contains "!" k = false ∧
    ∀ tag v, r !! tag = Some v →
      contains "!" tag = false ∧ contains ":" tag = false ∧
      ∀ t, t ∈ value_texts v → contains "!" t = false.

(** A stanza that names its tag before any [id:] line was read. *)
Definition name_before_id_lines : list string :=
  ["[Term]" +:+ nl; "name: x" +:+ nl].

(** A file header and a [Typedef] stanza, with lines that are no tag
    lines. *)
Definition header_and_typedef_lines : list string :=
  ["format-version: 1.2" +:+ nl; "no colon here" +:+ nl;
   "[Typedef]" +:+ nl; "id: part_of" +:+ nl; ":" +:+ nl].

(** The id the root walk moves to from [t]: the first ['is_a'] value of
    its record. *)
Definition first_parent (st : store) (t : string) : option string :=
  od_get t st ≫= λ r, head (parents_of r).

Definition walks_to (st : store) (t p : string) : Prop :=
  first_parent st t = Some p.

(** Two terms that name each other as parent. *)
Definition cyclic_store : store :=
  [("X", <["is_a" := Multi ["Y"]]> (<["id" := Single "X"]> ∅));
   ("Y", <["is_a" := Multi ["X"]]> (<["id" := Single "Y"]> ∅))].

(** What the parsing loop leaves for [diamond_lines], before the children
    column. *)
Definition diamond_parsed : store :=
  [("A", <["name" := Single "a"]> (<["id" := Single "A"]> ∅));
   ("B", <["is_a" := Multi ["A"]]>
           (<["name" := Single "b"]> (<["id" := Single "B"]> ∅)));
   ("C", <["is_a" := Multi ["A"]]>
           (<["name" := Single "c"]> (<["id" := Single "C"]> ∅)));
   ("D", <["is_a" := Multi ["B"; "C"]]>
           (<["name" := Single "d"]> (<["id" := Single "D"]> ∅)))].

(** The values a record holds under a tag that may repeat. *)
Definition multi_values (r : record) (tag : string) : list string :=
  match r !! tag with
  | Some (Multi l) => l
  | _ => []
  end.

(** The values that the tag lines among [lines] give for [tag], in the
    order of the lines. *)
Definition values_of (tag : string) (lines : list string) : list string :=
  base.omap (λ line, match parse_tag_line line with
                     | Ok (Some (t, v)) => if bool_decide (t = tag) then Some v else None
                     | _ => None
                     end) lines.

(** A line of the body of a stanza: no stanza header and no [id:] line. *)
Definition body_line (line : string) : Prop :=
  Py.startswith "[" line = false ∧ ∀ v, parse_tag_line line ≠ Ok (Some ("id", v)).

(** The parsing loop after [[Term]] and [id: T], and a body with two
    [xref:] lines. *)
Definition xref_state : parser_state :=
  mk_parser_state [("T", <["id" := Single "T"]> ∅)] (Some "Term") (Some "T").

Definition xref_body_lines : list string :=
  ["xref: UMLS:1 " +:+ nl; "name: n" +:+ nl; nl; "xref: MSH:2 ! second" +:+ nl].

(** * Properties *)

(** ** The ordered store *)

Lemma od_get_set_eq k r st : od_get k (od_set k r st) = Some r.
Proof.
  induction st as [|[k' r'] st IH]; simpl.
  - by rewrite decide_True.
  - destruct (decide (k' = k)) as [->|Hne]; simpl.
    + by rewrite decide_True.
    + by rewrite decide_False.
Qed.

Lemma od_get_set_ne k k' r st : k ≠ k' → od_get k' (od_set k r st) = od_get k' st.
Proof.
  intros Hne. induction st as [|[k0 r0] st IH]; simpl.
  - by rewrite decide_False.
  - destruct (decide (k0 = k)) as [->|Hne0]; simpl.
    + by rewrite !decide_False.
    + destruct (decide (k0 = k')); [done | apply IH].
Qed.

Lemma od_get_set k k' r st :
  od_get k' (od_set k r st) = if decide (k = k') then Some r else od_get k' st.
Proof.
  destruct (decide (k = k')) as [->|Hne].
  - apply od_get_set_eq.
  - by apply od_get_set_ne.
Qed.

Lemma od_keys_set_Some k r r0 st :
  od_get k st = Some r0 → od_keys (od_set k r st) = od_keys st.
Proof.
  unfold od_keys. induction st as [|[k' r'] st IH]; simpl; [done|].
  destruct (decide (k' = k)) as [->|Hne]; csimpl; [done|].
  intros H. f_equal. by apply IH.
Qed.

Lemma od_keys_set_None k r st :
  od_get k st = None → od_keys (od_set k r st) = od_keys st ++ [k].
Proof.
  unfold od_keys. induction st as [|[k' r'] st IH]; simpl; [done|].
  destruct (decide (k' = k)) as [->|Hne]; csimpl; [done|].
  intros H. f_equal. by apply IH.
Qed.

Lemma od_set_same k r st : od_get k st = Some r → od_set k r st = st.
Proof.
  induction st as [|[k' r'] st IH]; simpl; [done|].
  destruct (decide (k' = k)) as [->|Hne]; [congruence|].
  intros H. by rewrite IH.
Qed.

Lemma od_get_Some_elem k r st : od_get k st = Some r → (k, r) ∈ st.
Proof.
  induction st as [|[k' r'] st IH]; simpl; [done|].
  destruct (decide (k' = k)) as [->|Hne].
  - intros [= ->]. left.
  - intros H. right. by apply IH.
Qed.

Lemma od_get_is_Some k st : is_Some (od_get k st) ↔ k ∈ od_keys st.
Proof.
  unfold od_keys. induction st as [|[k' r'] st IH]; simpl.
  - split; [by intros [? ?] | by intros ?%elem_of_nil].
  - destruct (decide (k' = k)) as [->|Hne].
    + split; [intros _; left | eauto].
    + rewrite IH. split; [by right | ].
      intros [?|?]%elem_of_cons; [congruence | done].
Qed.

Lemma od_get_None k st : od_get k st = None ↔ k ∉ od_keys st.
Proof. rewrite <- od_get_is_Some, eq_None_not_Some. done. Qed.

Lemma od_get_NoDup k r st : NoDup (od_keys st) → (k, r) ∈ st → od_get k st = Some r.
Proof.
  unfold od_keys. induction st as [|[k' r'] st IH]; simpl.
  - by intros _ ?%elem_of_nil.
  - intros [Hnin Hnd]%NoDup_cons [Heq|Hin]%elem_of_cons.
    + injection Heq as -> ->. by rewrite decide_True.
    + destruct (decide (k' = k)) as [->|Hne]; [|by apply IH].
      exfalso. apply Hnin. apply list_elem_of_fmap. by exists (k, r).
Qed.

Lemma od_mem_true k st : od_mem k st = true ↔ is_Some (od_get k st).
Proof.
  unfold od_mem. destruct (od_get k st); split; done.
Qed.

Lemma confirm_id_valid_Ok k st label :
  is_Some (od_get k st) → _confirm_id_is_valid k st label = Ok tt.
Proof. intros H%od_mem_true. unfold _confirm_id_is_valid. by rewrite H. Qed.

Lemma confirm_id_valid_inv k st label u :
  _confirm_id_is_valid k st label = Ok u → is_Some (od_get k st).
Proof.
  unfold _confirm_id_is_valid. destruct (od_mem k st) eqn:H; [|done].
  intros _. by apply od_mem_true.
Qed.

(** ** The parser *)

Lemma obind_Ok {A B} (m : outcome A) (k : A → outcome B) b :
  obind m k = Ok b ↔ ∃ a, m = Ok a ∧ k a = Ok b.
Proof.
  destruct m; simpl; split; try done; try (by intros (? & ? & ?)).
  - eauto.
  - by intros (? & [= ->] & ?).
Qed.

Lemma omap_Ok {A B} (f : A → B) (m : outcome A) b :
  omap f m = Ok b ↔ ∃ a, m = Ok a ∧ b = f a.
Proof.
  unfold omap. rewrite obind_Ok. split.
  - intros (a & -> & [= <-]). eauto.
  - intros (a & -> & ->). eauto.
Qed.

Lemma ids_match_keys_set st k r :
  ids_match_keys st → r !! "id" = Some (Single k) → ids_match_keys (od_set k r st).
Proof.
  intros Hst Hr k' r'. rewrite od_get_set.
  destruct (decide (k = k')) as [->|Hne]; [by intros [= <-] | apply Hst].
Qed.

Lemma od_set_set k r r0 st : od_set k r (od_set k r0 st) = od_set k r st.
Proof.
  induction st as [|[k' r'] st IH]; simpl.
  - by rewrite decide_True.
  - destruct (decide (k' = k)) as [->|Hne]; simpl.
    + by rewrite decide_True.
    + rewrite decide_False by done. by rewrite IH.
Qed.

(** What [record_tag] does to the store: it writes one tag of one record,
    the fresh record of an [id] line or else the current record. *)
Lemma record_tag_inv tag value s s' :
  record_tag tag value s = Ok s' →
  current_stanza_type s' = current_stanza_type s ∧
  ∃ cur rec v,
    current_record s' = Some cur ∧
    obo_records_dict s' = od_set cur (<[tag := v]> rec) (obo_records_dict s) ∧
    (tag = "id" ∧ cur = value ∧ rec = ∅ ∨
     tag ≠ "id" ∧ current_record s = Some cur ∧
       od_get cur (obo_records_dict s) = Some rec) ∧
    (if only_one_allowed tag then rec !! tag = None ∧ v = Single value
     else ∃ l, v = Multi (l ++ [value]) ∧
          (rec !! tag = None ∧ l = [] ∨ rec !! tag = Some (Multi l))).
Proof.
  unfold record_tag. destruct s as [st sty cur]. simpl.
  case_bool_decide as Hid; simpl.
  - subst tag. rewrite od_get_set_eq. simpl. rewrite lookup_empty.
    intros [= <-]. simpl. split; [done|].
    exists value, ∅, (Single value). rewrite od_set_set, lookup_empty. eauto 10.
  - destruct cur as [cur|]; [|done].
    destruct (od_get cur st) as [rec|] eqn:Hget; [|done].
    destruct (only_one_allowed tag) eqn:Hone.
    + destruct (rec !! tag) eqn:Htag; [done|].
      intros [= <-]. simpl. split; [done|].
      exists cur, rec, (Single value). eauto 10.
    + destruct (rec !! tag) as [[?|l]|] eqn:Htag; [done | |].
      * intros [= <-]. simpl. split; [done|].
        exists cur, rec, (Multi (l ++ [value])). split_and!; eauto 10.
      * intros [= <-]. simpl. split; [done|].
        exists cur, rec, (Multi [value]). split_and!; eauto.
        exists []. eauto.
Qed.

Lemma parse_line_inv line s s' :
  parse_line line s = Ok s' →
  obo_records_dict s' = obo_records_dict s ∧ current_record s' = current_record s ∨
  ∃ tag value, record_tag tag value s = Ok s'.
Proof.
  unfold parse_line. destruct (Py.startswith "[" line).
  { intros [= <-]. by left. }
  destruct (negb _).
  { intros [= <-]. by left. }
  intros ([[tag value]|] & Hline & Hrec)%obind_Ok.
  - right. eauto.
  - injection Hrec as <-. by left.
Qed.

(** An invariant of the parsing loop, from a property of stores that
    [record_tag] keeps. *)
Lemma parse_lines_invariant (P : parser_state → Prop) lines s s' :
  (∀ tag value s1 s2, P s1 → record_tag tag value s1 = Ok s2 → P s2) →
  (∀ s1 s2, obo_records_dict s2 = obo_records_dict s1 →
            current_record s2 = current_record s1 → P s1 → P s2) →
  P s → parse_lines lines s = Ok s' → P s'.
Proof.
  intros Htag Hsame. revert s. induction lines as [|line lines IH]; simpl; intros s HP.
  - by intros [= <-].
  - intros (s1 & Hline & Hrest)%obind_Ok. apply (IH s1); [|done].
    destruct (parse_line_inv _ _ _ Hline) as [[Hst Hcur]|(tag & value & Hrec)].
    + by apply (Hsame s).
    + by apply (Htag tag value s).
Qed.

Lemma parse_lines_ids_match_keys lines s :
  parse_lines lines initial_parser_state = Ok s → ids_match_keys (obo_records_dict s).
Proof.
  apply (parse_lines_invariant (λ s, ids_match_keys (obo_records_dict s))).
  - intros tag value s1 s2 Hinv Hrec.
    destruct (record_tag_inv _ _ _ _ Hrec)
      as (_ & cur & rec & v & _ & -> & [(-> & -> & ->)|(Hid & _ & Hget)] & Hv).
    + simpl in Hv. destruct Hv as [_ ->].
      apply ids_match_keys_set; [done | by rewrite lookup_insert_eq].
    + apply ids_match_keys_set; [done|].
      rewrite lookup_insert_ne by done. by apply Hinv.
  - intros s1 s2 -> _. done.
  - intros k r. done.
Qed.

Lemma well_typed_insert tag v r :
  well_typed_record r →
  (if only_one_allowed tag then ∃ s, v = Single s else ∃ l, v = Multi l) →
  well_typed_record (<[tag := v]> r).
Proof.
  intros Hr Hv tag' v'. rewrite lookup_insert.
  case_decide as Heq; [intros [= <-]; by subst | apply Hr].
Qed.

Lemma od_set_NoDup k r st : NoDup (od_keys st) → NoDup (od_keys (od_set k r st)).
Proof.
  intros Hnd. destruct (od_get k st) as [r0|] eqn:Hget.
  - by rewrite (od_keys_set_Some _ _ r0).
  - rewrite od_keys_set_None by done.
    apply NoDup_app. split_and!; [done | | apply NoDup_singleton].
    intros x Hx ->%list_elem_of_singleton. by apply od_get_None in Hget.
Qed.

Lemma well_formed_set k r st :
  well_formed_store st → well_typed_record r → well_formed_store (od_set k r st).
Proof.
  intros [Hnd Hty] Hr. split; [by apply od_set_NoDup|].
  intros k' r'. rewrite od_get_set. case_decide; [by intros [= <-] | apply Hty].
Qed.

Lemma parse_lines_well_formed lines s :
  parse_lines lines initial_parser_state = Ok s → well_formed_store (obo_records_dict s).
Proof.
  apply (parse_lines_invariant (λ s, well_formed_store (obo_records_dict s))).
  - intros tag value s1 s2 Hinv Hrec.
    destruct (record_tag_inv _ _ _ _ Hrec)
      as (_ & cur & rec & v & _ & -> & Hcase & Hv).
    apply well_formed_set; [done|]. apply well_typed_insert.
    + destruct Hcase as [(_ & _ & ->)|(_ & _ & Hget)]; [by intros ?? | by eapply Hinv].
    + destruct (only_one_allowed tag); [destruct Hv as [_ ->] | destruct Hv as (l & -> & _)];
        eauto.
  - intros s1 s2 -> _. done.
  - split; [apply NoDup_nil_2 | done].
Qed.

(** ** Deriving the children column *)

Lemma with_children_other l r tag :
  tag ≠ "children" → with_children l r !! tag = r !! tag.
Proof. intros Hne. destruct l; simpl; [done|]. by rewrite lookup_insert_ne. Qed.

Lemma with_children_nil r : with_children [] r = r.
Proof. done. Qed.

Lemma od_get_extend ext k st :
  od_get k (extend_children ext st) = with_children (ext k) <$> od_get k st.
Proof.
  unfold extend_children. induction st as [|[k' r'] st IH]; csimpl; [done|].
  destruct (decide (k' = k)) as [->|Hne]; [done | apply IH].
Qed.

Lemma extend_children_ext ext ext' st :
  (∀ k, k ∈ od_keys st → ext k = ext' k) →
  extend_children ext st = extend_children ext' st.
Proof.
  unfold extend_children, od_keys. intros Hext. apply list_fmap_ext.
  intros i [k r] Hi. simpl. rewrite Hext; [done|].
  apply list_elem_of_fmap. exists (k, r). split; [done|].
  by eapply list_elem_of_lookup_2.
Qed.

Lemma extend_children_nil st : extend_children (λ _, []) st = st.
Proof.
  unfold extend_children. induction st as [|[k r] st IH]; csimpl; [done|].
  f_equal. apply IH.
Qed.

Lemma od_keys_extend ext st : od_keys (extend_children ext st) = od_keys st.
Proof.
  unfold od_keys, extend_children. rewrite <- list_fmap_compose.
  by apply list_fmap_ext.
Qed.

Lemma od_set_extend ext ext' p r st :
  NoDup (od_keys st) → od_get p st = Some r →
  (∀ k, k ≠ p → ext' k = ext k) →
  od_set p (with_children (ext' p) r) (extend_children ext st) = extend_children ext' st.
Proof.
  intros Hnd Hget Hext. revert Hnd Hget.
  unfold od_keys. induction st as [|[k' r'] st IH]; csimpl; [done|].
  intros [Hnin Hnd]%NoDup_cons.
  destruct (decide (k' = p)) as [->|Hne].
  - intros [= ->]. f_equal. apply extend_children_ext.
    intros k Hk. symmetry. apply Hext. by intros ->.
  - intros Hget. rewrite (Hext k') by done. f_equal. by apply IH.
Qed.

(** Appending one more child to a record that already received [l]. *)
Lemma with_children_snoc l t r :
  (r !! "children" = None ∨ ∃ l0, r !! "children" = Some (Multi l0)) →
  match with_children l r !! "children" with
  | None => Some (<["children" := Multi [t]]> (with_children l r))
  | Some (Multi l0) => Some (<["children" := Multi (l0 ++ [t])]> (with_children l r))
  | Some (Single _) => None
  end = Some (with_children (l ++ [t]) r).
Proof.
  intros Hr. destruct l as [|x l]; simpl.
  - unfold children_of. destruct Hr as [->|[l0 ->]]; simpl; done.
  - rewrite lookup_insert_eq, insert_insert_eq.
    by rewrite <- (assoc_L (++)).
Qed.

Lemma add_child_extend ext t p st log :
  NoDup (od_keys st) → children_are_lists st →
  add_child t p (extend_children ext st, log) =
    Ok (extend_children (λ k, if decide (k = p) then ext k ++ [t] else ext k) st,
        log ++ if od_get p st is None then [(t, p)] else []).
Proof.
  intros Hnd Hty. unfold add_child. rewrite od_get_extend.
  destruct (od_get p st) as [r|] eqn:Hget; simpl.
  - pose proof (with_children_snoc (ext p) t r (Hty _ _ Hget)) as Hsnoc.
    rewrite app_nil_r.
    destruct (with_children (ext p) r !! "children") as [[?|l0]|]; [done | |];
      injection Hsnoc as ->; do 2 f_equal;
      (rewrite <- (od_set_extend ext (λ k, if decide (k = p) then ext k ++ [t] else ext k) p r);
       [by rewrite decide_True | done | done | by intros; rewrite decide_False]).
  - do 2 f_equal. apply extend_children_ext. intros k Hk.
    rewrite decide_False; [done|]. intros ->. by apply od_get_None in Hget.
Qed.

Lemma add_children_extend t ps : ∀ ext st log,
  NoDup (od_keys st) → children_are_lists st →
  add_children t ps (extend_children ext st, log) =
    Ok (extend_children (λ k, ext k ++ ((λ _, t) <$> filter (λ p, p = k) ps)) st,
        log ++ ((λ p, (t, p)) <$> filter (λ p, od_get p st = None) ps)).
Proof.
  induction ps as [|p ps IH]; intros ext st log Hnd Hty.
  - simpl. rewrite app_nil_r. do 2 f_equal. apply extend_children_ext.
    intros. by rewrite app_nil_r.
  - cbn [add_children]. rewrite add_child_extend by done.
    cbn [obind]. rewrite IH by done.
    f_equal. f_equal.
    + apply extend_children_ext. intros k _. rewrite filter_cons.
      destruct (decide (k = p)) as [->|Hne].
      * rewrite decide_True by done. csimpl. by rewrite <- (assoc_L (++)).
      * by rewrite decide_False by done.
    + rewrite filter_cons. destruct (od_get p st) eqn:Hget.
      * rewrite decide_False by done. by rewrite app_nil_r.
      * rewrite decide_True by done. csimpl. by rewrite <- (assoc_L (++)).
Qed.

Lemma children_loop_extend st : ∀ post ext log,
  NoDup (od_keys st) → children_are_lists st → post ⊆ st →
  children_loop (od_keys post) (extend_children ext st, log) =
    Ok (extend_children (λ k, ext k ++ derived_children post k) st,
        log ++ (post ≫= dangling_of st)).
Proof.
  unfold od_keys at 2.
  induction post as [|[t r] post IH]; intros ext log Hnd Hty Hsub; csimpl.
  - rewrite app_nil_r. do 2 f_equal. apply extend_children_ext.
    intros. unfold derived_children. by rewrite app_nil_r.
  - assert (od_get t st = Some r) as Hget.
    { apply od_get_NoDup; [done|]. apply Hsub. left. }
    assert (post ⊆ st) as Hsub' by (intros x Hx; apply Hsub; by right).
    rewrite od_get_extend, Hget. simpl.
    rewrite with_children_other by done.
    unfold derived_children, declared_links, dangling_of. simpl.
    destruct (r !! "is_a") as [v|] eqn:Hisa; simpl.
    + rewrite add_children_extend by done. simpl.
      rewrite IH by done. f_equal. f_equal.
      * apply extend_children_ext. intros k _. csimpl.
        by rewrite <- (assoc_L (++)).
      * by rewrite <- (assoc_L (++)).
    + by rewrite IH by done.
Qed.

(** The nested loops compute the inverse of the declared links: every
    record receives, after the children it already had, the ids of the
    records that name it as a parent, and the log receives the links that
    lead nowhere. *)
Lemma compute_children_column_spec st :
  NoDup (od_keys st) → children_are_lists st →
  _compute_children_column st =
    Ok (extend_children (derived_children st) st, dangling_links st).
Proof.
  intros Hnd Hty. unfold _compute_children_column.
  rewrite <- (extend_children_nil st) at 2.
  rewrite (children_loop_extend st st) by done. done.
Qed.

Lemma same_except_refl tags st : same_except tags st st.
Proof. split; [done|]. intros k r Hget. eauto. Qed.

Lemma same_except_trans tags st1 st2 st3 :
  same_except tags st1 st2 → same_except tags st2 st3 → same_except tags st1 st3.
Proof.
  intros [Hk12 H12] [Hk23 H23]. split; [congruence|].
  intros k r Hget. destruct (H12 _ _ Hget) as (r2 & Hget2 & Hr2).
  destruct (H23 _ _ Hget2) as (r3 & Hget3 & Hr3).
  exists r3. split; [done|]. intros tag Htag. rewrite Hr3, Hr2; done.
Qed.

Lemma same_except_set tags k r r' st :
  od_get k st = Some r → (∀ tag, tag ∉ tags → r' !! tag = r !! tag) →
  same_except tags st (od_set k r' st).
Proof.
  intros Hget Hr. split; [by eapply od_keys_set_Some|].
  intros k0 r0 Hget0. rewrite od_get_set. case_decide as Hk; [|eauto].
  subst k0. exists r'. split; [done|]. by replace r0 with r by congruence.
Qed.

Lemma same_except_None tags st st' k :
  same_except tags st st' → od_get k st = None → od_get k st' = None.
Proof. intros [Hk _]. rewrite !od_get_None. by rewrite Hk. Qed.

Lemma same_except_id_attribute tags st st' k :
  same_except tags st st' → "id" ∉ tags → id_attribute k st' = id_attribute k st.
Proof.
  intros Hsame Hid. unfold id_attribute.
  destruct (od_get k st) as [r|] eqn:Hget.
  - destruct Hsame as [_ Hsame]. destruct (Hsame _ _ Hget) as (r' & -> & Hr').
    simpl. by apply Hr'.
  - by rewrite (same_except_None _ _ _ _ Hsame Hget).
Qed.

Lemma same_except_ids_match_keys tags st st' :
  same_except tags st st' → "id" ∉ tags → ids_match_keys st → ids_match_keys st'.
Proof.
  intros Hsame Hid Hst k r' Hget'.
  pose proof (same_except_id_attribute _ _ _ k Hsame Hid) as Hattr.
  unfold id_attribute in Hattr. rewrite Hget' in Hattr. simpl in Hattr.
  destruct (od_get k st) as [r|] eqn:Hget.
  - simpl in Hattr. rewrite Hattr. by apply Hst.
  - rewrite (same_except_None _ _ _ _ Hsame Hget) in Hget'. done.
Qed.

Lemma add_child_same_except t p acc acc' :
  add_child t p acc = Ok acc' → same_except ["children"] acc.1 acc'.1.
Proof.
  unfold add_child. destruct acc as [st log].
  destruct (od_get p st) as [r|] eqn:Hget.
  - destruct (r !! "children") as [[?|l]|]; [done | |]; intros [= <-]; simpl;
      (eapply same_except_set; [done|]);
      intros tag Htag; rewrite lookup_insert_ne; [done| |done|];
      intros <-; apply Htag; left.
  - intros [= <-]. apply same_except_refl.
Qed.

Lemma add_children_same_except t ps : ∀ acc acc',
  add_children t ps acc = Ok acc' → same_except ["children"] acc.1 acc'.1.
Proof.
  induction ps as [|p ps IH]; intros acc acc'; cbn [add_children].
  - intros [= <-]. apply same_except_refl.
  - intros (acc1 & H1 & H2)%obind_Ok.
    eapply same_except_trans; [by eapply add_child_same_except | by apply IH].
Qed.

Lemma children_loop_same_except items : ∀ acc acc',
  children_loop items acc = Ok acc' → same_except ["children"] acc.1 acc'.1.
Proof.
  induction items as [|t items IH]; intros acc acc'; cbn [children_loop].
  - intros [= <-]. apply same_except_refl.
  - destruct (od_get t acc.1) as [r|]; [|done].
    destruct (r !! "is_a") as [v|]; [|apply IH].
    intros (acc1 & H1 & H2)%obind_Ok.
    eapply same_except_trans; [by eapply add_children_same_except | by apply IH].
Qed.

(** [_compute_children_column] writes nothing but ['children']. *)
Lemma compute_children_column_same_except st st' log :
  _compute_children_column st = Ok (st', log) → same_except ["children"] st st'.
Proof. intros H. by apply children_loop_same_except in H. Qed.

Lemma well_formed_children_are_lists st :
  well_formed_store st → children_are_lists st.
Proof.
  intros [_ Hty] k r Hget. destruct (r !! "children") as [v|] eqn:Hc; [|by left].
  right. apply (Hty _ _ Hget) in Hc. simpl in Hc. destruct Hc as [l ->]. eauto.
Qed.

Lemma children_of_with_children l r :
  (r !! "children" = None ∨ ∃ l0, r !! "children" = Some (Multi l0)) →
  children_of (with_children l r) = children_of r ++ l.
Proof.
  intros Hr. destruct l as [|x l]; simpl; [by rewrite app_nil_r|].
  unfold children_of at 1. by rewrite lookup_insert_eq.
Qed.

(** Membership in the derived list: the records that name [parent]. *)
Lemma elem_of_derived_children st parent c :
  NoDup (od_keys st) →
  c ∈ derived_children st parent ↔
  ∃ rc, od_get c st = Some rc ∧ parent ∈ parents_of rc.
Proof.
  intros Hnd. unfold derived_children. rewrite list_elem_of_bind. split.
  - intros ([c' rc] & Hc & Hin). unfold declared_links in Hc. simpl in Hc.
    exists rc. unfold parents_of.
    destruct (rc !! "is_a") as [v|]; [|by apply elem_of_nil in Hc].
    apply list_elem_of_fmap in Hc as (p & -> & Hp).
    apply list_elem_of_filter in Hp as [-> Hp].
    split; [by apply od_get_NoDup | done].
  - intros (rc & Hget & Hp). exists (c, rc). split; [|by apply od_get_Some_elem].
    unfold declared_links, parents_of in *. simpl.
    destruct (rc !! "is_a") as [v|]; [|by apply elem_of_nil in Hp].
    apply list_elem_of_fmap. exists parent. split; [done|].
    by apply list_elem_of_filter.
Qed.

Lemma compute_children_column_lookup st k r :
  NoDup (od_keys st) → children_are_lists st → od_get k st = Some r →
  ∃ st' r',
    _compute_children_column st = Ok (st', dangling_links st) ∧
    od_keys st' = od_keys st ∧
    od_get k st' = Some r' ∧
    r' !! "is_a" = r !! "is_a" ∧
    children_of r' = children_of r ++ derived_children st k.
Proof.
  intros Hnd Hty Hget.
  exists (extend_children (derived_children st) st), (with_children (derived_children st k) r).
  split_and!.
  - by apply compute_children_column_spec.
  - apply od_keys_extend.
  - by rewrite od_get_extend, Hget.
  - by apply with_children_other.
  - apply children_of_with_children. by eapply Hty.
Qed.


Lemma retinal_coloboma_parse_lines :
  parse_lines retinal_coloboma_lines initial_parser_state
  = Ok (mk_parser_state
          [("HP:0000480",
            <["is_a" := Multi ["HP:0000479"]]>
              (<["name" := Single "Retinal coloboma"]>
                 (<["id" := Single "HP:0000480"]> ∅)))]
          (Some "Term") (Some "HP:0000480")).
Proof. vm_compute. reflexivity. Qed.





(** C8.  A parent id that is not a key of the store does not make
    [_compute_children_column] raise: the call returns, the log holds the
    warning for that link, no record appears under the missing id, every
    record keeps its ['is_a'] value, and every record still receives all
    the links that name it, also those met after the dangling one. *)
Theorem dangling_parent_is_not_fatal st t r p :
  NoDup (od_keys st) → children_are_lists st →
  od_get t st = Some r → p ∈ parents_of r → od_get p st = None →
  ∃ st' log,
    _compute_children_column st = Ok (st', log) ∧
    (t, p) ∈ log ∧
    od_get p st' = None ∧
    od_keys st' = od_keys st ∧
    ∀ k r0, od_get k st = Some r0 →
      ∃ r', od_get k st' = Some r' ∧
        r' !! "is_a" = r0 !! "is_a" ∧
        children_of r' = children_of r0 ++ derived_children st k.
Proof.
  intros Hnd Hty Hget Hp Hnone.
  exists (extend_children (derived_children st) st), (dangling_links st).
  pose proof (compute_children_column_spec _ Hnd Hty) as Hspec.
  split_and!; [done | | | apply od_keys_extend |].
  - unfold dangling_links. apply list_elem_of_bind. exists (t, r).
    split; [|by apply od_get_Some_elem].
    unfold dangling_of, parents_of in *. simpl.
    destruct (r !! "is_a") as [v|]; [|by apply elem_of_nil in Hp].
    apply list_elem_of_fmap. exists p. split; [done|]. by apply list_elem_of_filter.
  - by rewrite od_get_extend, Hnone.
  - intros k r0 Hget0.
    destruct (compute_children_column_lookup _ _ _ Hnd Hty Hget0)
      as (st' & r' & Hrun & _ & Hget' & Hisa & Hch).
    rewrite Hspec in Hrun. injection Hrun as <-.
    by exists r'.
Qed.

Lemma children_are_lists_Forall st :
  Forall (λ item : string * record,
            item.2 !! "children" = None ∨ ∃ l, item.2 !! "children" = Some (Multi l)) st →
  children_are_lists st.
Proof.
  intros Hall k r Hget%od_get_Some_elem.
  by apply (proj1 (Forall_forall _ _) Hall (k, r)).
Qed.

Lemma dangling_parent_is_not_fatal_witness :
  ∃ st' log,
    _compute_children_column dangling_store = Ok (st', log) ∧
    ("B", "Z") ∈ log ∧
    od_get "Z" st' = None ∧
    od_keys st' = od_keys dangling_store ∧
    ∀ k r0, od_get k dangling_store = Some r0 →
      ∃ r', od_get k st' = Some r' ∧
        r' !! "is_a" = r0 !! "is_a" ∧
        children_of r' = children_of r0 ++ derived_children dangling_store k.
Proof.
  apply (dangling_parent_is_not_fatal dangling_store "B"
           (<["is_a" := Multi ["Z"; "A"]]> (<["id" := Single "B"]> ∅)) "Z").
  - apply (bool_decide_unpack _). vm_compute. exact I.
  - apply children_are_lists_Forall. repeat constructor.
  - reflexivity.
  - vm_compute. left.
  - reflexivity.
Defined.

(** ** Lines of a [Term] stanza *)

Lemma append_cons x (a b : string) : String x a +:+ b = String x (a +:+ b).
Proof. reflexivity. Qed.

Lemma append_nil (b : string) : "" +:+ b = b.
Proof. reflexivity. Qed.

Lemma append_assoc (a b c : string) : (a +:+ b) +:+ c = a +:+ (b +:+ c).
Proof.
  induction a as [|x a IH]; [done|]. rewrite !append_cons. by rewrite IH.
Qed.

Lemma contains_append c a b : contains c (a +:+ b) = contains c a || contains c b.
Proof.
  induction a as [|x a IH]; [done|]. rewrite append_cons. simpl.
  rewrite IH. by rewrite orb_assoc.
Qed.

Lemma split_head_append c a b :
  contains c a = false → Py.split_head c (a +:+ String c b) = a.
Proof.
  induction a as [|x a IH].
  - rewrite append_nil. simpl. by rewrite Ascii.eqb_refl.
  - rewrite append_cons. simpl. intros [Hx Ha]%orb_false_iff. rewrite Hx. by rewrite IH.
Qed.

Lemma split_head_absent c a : contains c a = false → Py.split_head c a = a.
Proof.
  induction a as [|x a IH]; simpl; [done|].
  intros [Hx Ha]%orb_false_iff. rewrite Hx. by rewrite IH.
Qed.

Lemma after_first_append c a b :
  contains c a = false → Py.after_first c (a +:+ String c b) = Some b.
Proof.
  induction a as [|x a IH].
  - rewrite append_nil. simpl. by rewrite Ascii.eqb_refl.
  - rewrite append_cons. simpl. intros [Hx Ha]%orb_false_iff. rewrite Hx. by apply IH.
Qed.

Lemma rstrip_cons cs c b :
  Py.mem c cs = false → Py.rstrip cs (String c b) = String c (Py.rstrip cs b).
Proof. intros Hc. simpl. rewrite Hc. by destruct (Py.rstrip cs b). Qed.

(** [rstrip] does not reach past a character it does not strip. *)
Lemma rstrip_append cs a c b :
  Py.mem c cs = false →
  Py.rstrip cs (a +:+ String c b) = a +:+ String c (Py.rstrip cs b).
Proof.
  intros Hc. induction a as [|x a IH].
  - by apply rstrip_cons.
  - rewrite !append_cons. cbn [Py.rstrip]. rewrite IH. by destruct a.
Qed.

Lemma rstrip_newline v :
  contains Py.newline v = false → Py.rstrip [Py.newline] (v +:+ nl) = v.
Proof.
  induction v as [|x v IH]; [done|].
  cbn [contains]. intros [Hx Hv]%orb_false_iff.
  rewrite append_cons. cbn [Py.rstrip]. rewrite IH by done.
  destruct v; [|done]. unfold Py.mem. simpl. by rewrite Hx.
Qed.

Lemma match_tag_and_value_append tag v :
  tag ≠ "" → contains ":" tag = false → v ≠ "" →
  match_tag_and_value (tag +:+ String ":" v) = Some (tag, v).
Proof.
  intros Htag Hcolon Hv. unfold match_tag_and_value.
  rewrite split_head_append, after_first_append by done.
  by rewrite !bool_decide_eq_false_2.
Qed.

Lemma parse_tag_line_comment tag v comment :
  tag ≠ "" → contains ":" tag = false → contains "!" tag = false →
  v ≠ "" → contains "!" v = false →
  parse_tag_line (tag +:+ ":" +:+ v +:+ "!" +:+ comment)
  = Ok (Some (tag, Py.strip Py.whitespace v)).
Proof.
  intros Htag Hcolon Hbang Hv Hvbang. unfold parse_tag_line.
  change (tag +:+ ":" +:+ v +:+ "!" +:+ comment)
    with (tag +:+ (String ":" v +:+ String "!" comment)).
  rewrite <- append_assoc, rstrip_append by done.
  rewrite split_head_append.
  2:{ rewrite contains_append. simpl. by rewrite Hbang, Hvbang. }
  rewrite bool_decide_eq_false_2 by (by destruct tag).
  by rewrite match_tag_and_value_append.
Qed.

Lemma parse_tag_line_plain tag v :
  tag ≠ "" → contains ":" tag = false → contains "!" tag = false →
  v ≠ "" → contains "!" v = false → contains Py.newline v = false →
  parse_tag_line (tag +:+ ":" +:+ v +:+ nl) = Ok (Some (tag, Py.strip Py.whitespace v)).
Proof.
  intros Htag Hcolon Hbang Hv Hvbang Hnl. unfold parse_tag_line.
  change (tag +:+ ":" +:+ v +:+ nl) with (tag +:+ String ":" (v +:+ nl)).
  rewrite rstrip_append, rstrip_newline by done.
  rewrite split_head_absent.
  2:{ rewrite contains_append. simpl. by rewrite Hbang, Hvbang. }
  rewrite bool_decide_eq_false_2 by (by destruct tag).
  by rewrite match_tag_and_value_append.
Qed.

Lemma startswith_append p tag rest :
  tag ≠ "" → Py.startswith (String p "") (tag +:+ rest) = Py.startswith (String p "") tag.
Proof.
  intros Htag. destruct tag as [|x tag]; [done|]. rewrite append_cons.
  unfold Py.startswith. cbn. destruct (ascii_dec p x); [|done].
  by destruct (tag +:+ rest), tag.
Qed.

(** C9 (amended).  In a [Term] stanza, a tag line contributes its tag with
    the text between the first [':'] and the first ['!'], trimmed of
    surrounding whitespace: everything from the first ['!'] on is dropped
    with the ['!'] itself, whether or not a backslash precedes it.  The
    line [is_a: HP:0000479 ! Abnormality of the retina] contributes the
    single value ["HP:0000479"]. *)
Theorem tag_line_drops_comment_and_trims s tag v comment :
  current_stanza_type s = Some "Term" →
  tag ≠ "" → Py.startswith "[" tag = false →
  contains ":" tag = false → contains "!" tag = false →
  v ≠ "" → contains "!" v = false →
  parse_line (tag +:+ ":" +:+ v +:+ "!" +:+ comment) s
    = record_tag tag (Py.strip Py.whitespace v) s ∧
  (contains Py.newline v = false →
   parse_line (tag +:+ ":" +:+ v +:+ nl) s = record_tag tag (Py.strip Py.whitespace v) s) ∧
  parse_obo_format retinal_coloboma_lines
    = Ok ([("HP:0000480",
            <["is_a" := Multi ["HP:0000479"]]>
              (<["name" := Single "Retinal coloboma"]>
                 (<["id" := Single "HP:0000480"]> ∅)))],
          [("HP:0000480", "HP:0000479")]).
Proof.
  intros Hterm Htag Hbr Hcolon Hbang Hv Hvbang.
  split_and!.
  - unfold parse_line. rewrite startswith_append, Hbr, Hterm by done.
    rewrite bool_decide_eq_true_2 by done. simpl negb. cbv iota.
    by rewrite parse_tag_line_comment.
  - intros Hnl. unfold parse_line. rewrite startswith_append, Hbr, Hterm by done.
    rewrite bool_decide_eq_true_2 by done. simpl negb. cbv iota.
    by rewrite parse_tag_line_plain.
  - vm_compute. reflexivity.
Qed.

Lemma record_is_a_value :
  record_tag "is_a" (Py.strip Py.whitespace " HP:0000479 ")
    (mk_parser_state [("HP:0000480", <["id" := Single "HP:0000480"]> ∅)]
       (Some "Term") (Some "HP:0000480"))
  = Ok (mk_parser_state
          [("HP:0000480",
            <["is_a" := Multi ["HP:0000479"]]> (<["id" := Single "HP:0000480"]> ∅))]
          (Some "Term") (Some "HP:0000480")).
Proof. vm_compute. reflexivity. Qed.

Lemma tag_line_drops_comment_and_trims_witness :
  parse_line ("is_a" +:+ ":" +:+ " HP:0000479 " +:+ "!" +:+ " Abnormality of the retina" +:+ nl)
      (mk_parser_state [("HP:0000480", <["id" := Single "HP:0000480"]> ∅)]
         (Some "Term") (Some "HP:0000480"))
    = Ok (mk_parser_state
            [("HP:0000480",
              <["is_a" := Multi ["HP:0000479"]]> (<["id" := Single "HP:0000480"]> ∅))]
            (Some "Term") (Some "HP:0000480")) ∧
  parse_line ("is_a" +:+ ":" +:+ " HP:0000479 " +:+ nl)
      (mk_parser_state [("HP:0000480", <["id" := Single "HP:0000480"]> ∅)]
         (Some "Term") (Some "HP:0000480"))
    = Ok (mk_parser_state
            [("HP:0000480",
              <["is_a" := Multi ["HP:0000479"]]> (<["id" := Single "HP:0000480"]> ∅))]
            (Some "Term") (Some "HP:0000480")).
Proof.
  destruct (tag_line_drops_comment_and_trims
              (mk_parser_state [("HP:0000480", <["id" := Single "HP:0000480"]> ∅)]
                 (Some "Term") (Some "HP:0000480"))
              "is_a" " HP:0000479 " (" Abnormality of the retina" +:+ nl)
              eq_refl (λ H, eq_ind "is_a" (λ t, if t is EmptyString then False else True) I "" H)
              eq_refl eq_refl eq_refl
              (λ H, eq_ind " HP:0000479 " (λ t, if t is EmptyString then False else True) I "" H)
              eq_refl)
    as (Hcomment & Hplain & _).
  exact (conj (eq_trans Hcomment record_is_a_value)
              (eq_trans (Hplain eq_refl) record_is_a_value)).
Defined.

(** C9, as stated, fails on an escaped ['!']: the backslash does not
    protect it, and the text after it is dropped all the same. *)
Lemma escaped_bang_starts_a_comment :
  parse_tag_line ("name: a\!b" +:+ nl) = Ok (Some ("name", "a\")) ∧
  parse_tag_line ("name: a\!b" +:+ nl) ≠ Ok (Some ("name", "a\!b")) ∧
  parse_tag_line ("name: a\!b" +:+ nl) ≠ Ok (Some ("name", "a!b")).
Proof. split_and!; [reflexivity | discriminate | discriminate]. Qed.

(** ** Frame of the traversal and of the category propagation *)

Lemma get_substree_loop_same_except tags body skip :
  (∀ r tag, tag ∉ tags → body r !! tag = r !! tag) →
  ∀ fuel st queue seen st' ys,
    get_substree_loop fuel body skip st queue seen = Ok (st', ys) →
    same_except tags st st'.
Proof.
  intros Hbody. induction fuel as [|fuel IH]; intros st queue seen st' ys; [done|].
  cbn [get_substree_loop]. destruct queue as [|x queue].
  { intros [= <- _]. apply same_except_refl. }
  destruct (od_get x st) as [r|] eqn:Hget; [|done].
  destruct (_ || _).
  { apply IH. }
  intros ([st1 ys1] & Hrun & [= <- _])%obind_Ok.
  eapply same_except_trans; [|by eapply IH].
  eapply same_except_set; [done|]. intros tag Htag. by apply Hbody.
Qed.

Lemma stamp_other a b c n r tag :
  tag ∉ category_tags → stamp a b c n r !! tag = r !! tag.
Proof.
  intros Htag. unfold stamp.
  assert (tag ≠ "category_id") by (intros ->; apply Htag; left).
  assert (tag ≠ "category_name") by (intros ->; apply Htag; right; left).
  destruct a, b; by rewrite ?lookup_insert_ne.
Qed.

Lemma for_in_substree_same_except tags body fuel st root skip st' ys :
  (∀ r tag, tag ∉ tags → body r !! tag = r !! tag) →
  for_in_substree fuel body st root skip = Ok (st', ys) → same_except tags st st'.
Proof.
  intros Hbody (_ & _ & Hrun)%obind_Ok.
  by eapply get_substree_loop_same_except.
Qed.

Lemma category_loop_same_except fuel a b cids : ∀ st st' trace,
  category_loop fuel a b cids st = Ok (st', trace) → same_except category_tags st st'.
Proof.
  induction cids as [|c cids IH]; intros st st' trace; cbn [category_loop].
  - intros [= <- _]. apply same_except_refl.
  - destruct (od_get c st) as [rc|]; [|done].
    intros ([st1 ys] & Hrun & ([st2 tr] & Hrest & [= <- _])%obind_Ok)%obind_Ok.
    eapply same_except_trans; [|by eapply IH].
    eapply for_in_substree_same_except; [|done].
    intros r tag. apply stamp_other.
Qed.

(** [compute_category_column] writes nothing but the two category tags. *)
Lemma compute_category_column_same_except fuel st root a b st' :
  compute_category_column fuel st root a b = Ok st' → same_except category_tags st st'.
Proof.
  unfold compute_category_column. intros (_ & _ & Hrun)%obind_Ok.
  destruct (od_get root st) as [r|]; [|done].
  destruct (children_of r) as [|c cs] eqn:Hcs.
  - injection Hrun as <-. apply same_except_refl.
  - apply omap_Ok in Hrun as ([st1 trace] & Hrun & ->).
    by eapply category_loop_same_except.
Qed.

(** ** The [id] of a record *)

(** C7.  Every record of the store that [parse_obo_format] returns holds its
    own key under ['id'].  [_compute_children_column] and
    [compute_category_column] keep the keys of the store and the ['id'] of
    every record, so both keep that invariant. *)
Theorem parsed_ids_match_keys :
  (∀ lines st log, parse_obo_format lines = Ok (st, log) → ids_match_keys st) ∧
  (∀ st st' log, _compute_children_column st = Ok (st', log) →
     od_keys st' = od_keys st ∧
     (∀ k, id_attribute k st' = id_attribute k st) ∧
     (ids_match_keys st → ids_match_keys st')) ∧
  (∀ fuel st root add_id add_name st',
     compute_category_column fuel st root add_id add_name = Ok st' →
     od_keys st' = od_keys st ∧
     (∀ k, id_attribute k st' = id_attribute k st) ∧
     (ids_match_keys st → ids_match_keys st')).
Proof.
  assert ("id" ∉ ["children"]) as Hid1.
  { intros [=]%list_elem_of_singleton. }
  assert ("id" ∉ category_tags) as Hid2.
  { intros [[=]|[=]%list_elem_of_singleton]%elem_of_cons. }
  split_and!.
  - intros lines st log (s & Hparse & Hcol)%obind_Ok.
    apply compute_children_column_same_except in Hcol.
    eapply same_except_ids_match_keys; [done | done |].
    by eapply parse_lines_ids_match_keys.
  - intros st st' log Hsame%compute_children_column_same_except.
    split_and!; [apply Hsame | | by eapply same_except_ids_match_keys].
    intros k. by eapply same_except_id_attribute.
  - intros fuel st root a b st' Hsame%compute_category_column_same_except.
    split_and!; [apply Hsame | | by eapply same_except_ids_match_keys].
    intros k. by eapply same_except_id_attribute.
Qed.

Lemma diamond_parse : parse_obo_format diamond_lines = Ok (diamond_store, []).
Proof. vm_compute. reflexivity. Qed.

Lemma diamond_categories :
  compute_category_column 10 diamond_store "A" true true = Ok diamond_stamped.
Proof. vm_compute. reflexivity. Qed.

Lemma parsed_ids_match_keys_witness :
  ids_match_keys diamond_store ∧
  od_keys diamond_stamped = od_keys diamond_store ∧
  ids_match_keys diamond_stamped.
Proof.
  destruct parsed_ids_match_keys as (Hparse & _ & Hcategory).
  pose proof (Hparse _ _ _ diamond_parse) as Hinv.
  destruct (Hcategory _ _ _ _ _ _ diamond_categories) as (Hk & _ & Hpres).
  exact (conj Hinv (conj Hk (Hpres Hinv))).
Defined.

(** ** Duplicate tags *)

(** C1: the code at the claim's failing input.  A [Term] stanza with two
    [id:] lines is accepted: each [id:] line starts a fresh record before
    the duplicate check runs, so the check never sees the first id. *)
Theorem two_id_lines_are_accepted :
  parse_obo_format two_id_lines
  = Ok ([("A", <["id" := Single "A"]> ∅); ("B", <["id" := Single "B"]> ∅)], []).
Proof. vm_compute. reflexivity. Qed.

Lemma two_name_lines_are_rejected :
  parse_obo_format two_name_lines
  = Raise (ValueError "More than one 'name' found in Term stanza: x, y").
Proof. vm_compute. reflexivity. Qed.

(** The other single-valued tags do fail on a repetition. *)
Lemma repeated_tag_raises tag value s cur rec held :
  tag ∈ ["name"; "def"; "comment"] →
  current_record s = Some cur →
  od_get cur (obo_records_dict s) = Some rec →
  rec !! tag = Some held →
  record_tag tag value s
  = Raise (duplicate_tag_error tag (default "None" (current_stanza_type s)) held value).
Proof.
  intros Htag Hcur Hget Hv. unfold record_tag.
  assert (tag ≠ "id" ∧ only_one_allowed tag = true) as [Hid Hone].
  { repeat (apply elem_of_cons in Htag as [->|Htag]); try done.
    by apply elem_of_nil in Htag. }
  rewrite bool_decide_eq_false_2 by done. by rewrite Hcur, Hget, Hone, Hv.
Qed.

Lemma parse_lines_aborts before line after e s : ∀ s0,
  parse_lines before s0 = Ok s → parse_line line s = Raise e →
  parse_lines (before ++ line :: after) s0 = Raise e.
Proof.
  induction before as [|l before IH]; intros s0; simpl.
  - intros [= ->] Hline. by rewrite Hline.
  - destruct (parse_line l s0) as [s1| |]; simpl; [apply IH | done | done].
Qed.

(** An exception of one line ends the parse: no store is returned. *)
Lemma parse_obo_format_aborts before line after s e :
  parse_lines before initial_parser_state = Ok s →
  parse_line line s = Raise e →
  parse_obo_format (before ++ line :: after) = Raise e.
Proof.
  intros Hbefore Hline. unfold parse_obo_format.
  by rewrite (parse_lines_aborts before line after e s).
Qed.

(** ** The root walk *)

Lemma resolves_not_out_of_fuel st t o : resolves st t o → o ≠ OutOfFuel.
Proof. induction 1; done. Qed.

Lemma od_keys_length st : length (od_keys st) = length st.
Proof. unfold od_keys. apply length_fmap. Qed.

(** A walk that has visited the distinct keys [visited] on its way to [t]
    ends within the number of keys that are left. *)
Lemma root_walk_resolves st :
  is_a_acyclic st →
  ∀ fuel visited t,
    NoDup visited → (∀ v, v ∈ visited → v ∈ od_keys st) →
    (∀ v, v ∈ visited → tc (parent_edge st) v t) →
    is_Some (od_get t st) →
    length st < fuel + length visited →
    ∃ o, resolves st t o ∧ root_walk fuel st t = o.
Proof.
  intros Hacyc fuel. induction fuel as [|fuel IH];
    intros visited t Hnd Hkeys Hreach [r Hget] Hfuel.
  - exfalso.
    assert (NoDup (t :: visited)) as Hnd'.
    { apply NoDup_cons. split; [|done]. intros Hin. by apply (Hacyc t), Hreach. }
    assert (t :: visited ⊆+ od_keys st) as Hsub.
    { apply NoDup_submseteq; [done|]. intros x [->|Hx]%elem_of_cons; [|by apply Hkeys].
      apply od_get_is_Some. by eexists. }
    apply submseteq_length in Hsub. rewrite od_keys_length in Hsub. simpl in *. lia.
  - cbn [root_walk]. rewrite Hget.
    destruct (r !! "is_a") as [v|] eqn:Hisa.
    2:{ exists (Ok t). split; [|done]. eapply resolves_root; [done|].
        unfold parents_of. by rewrite Hisa. }
    destruct (iter_value v) as [|p ps] eqn:Hv.
    { exists (Ok t). split; [|done]. eapply resolves_root; [done|].
      unfold parents_of. by rewrite Hisa. }
    assert (parents_of r = p :: ps) as Hparents.
    { unfold parents_of. by rewrite Hisa. }
    unfold _confirm_id_is_valid, od_mem.
    destruct (od_get p st) as [rp|] eqn:Hp; simpl.
    + assert (parent_edge st t p) as Hedge.
      { exists r. split; [done|]. rewrite Hparents. left. }
      destruct (IH (t :: visited) p) as (o & Hres & Hrun).
      * apply NoDup_cons. split; [|done]. intros Hin. by apply (Hacyc t), Hreach.
      * intros x [->|Hx]%elem_of_cons; [|by apply Hkeys].
        apply od_get_is_Some. by eexists.
      * intros x [->|Hx]%elem_of_cons; [by apply tc_once|].
        eapply tc_r; [by apply Hreach | done].
      * by eexists.
      * simpl. lia.
      * exists o. split; [|done]. eapply resolves_step; [done | done | by eexists | done].
    + exists (Raise (parent_not_found t p)). split; [|done].
      by eapply resolves_missing.
Qed.

Lemma is_a_acyclic_of_rank (rank : string → nat) st :
  (∀ x p, parent_edge st x p → rank p < rank x) → is_a_acyclic st.
Proof.
  intros Hrank x Hx.
  assert (∀ a b, tc (parent_edge st) a b → rank b < rank a) as Htc.
  { induction 1 as [a b Hab|a b c Hab _ IH]; [by apply Hrank|].
    apply Hrank in Hab. lia. }
  apply Htc in Hx. lia.
Qed.

(** C6.  On a non-empty store whose ['is_a'] graph has no cycle,
    [_compute_root_id] with fuel beyond the number of records starts from
    the first key and gives what the walk of the specification gives: the
    first id reached whose ['is_a'] is absent or empty, or the lookup error
    when a first parent is not a key of the store.  On the store X is_a Y,
    Y is_a Z it returns Z, and on the empty store [None]. *)
Theorem compute_root_id_walks_to_root :
  (∀ st fuel, st ≠ [] → is_a_acyclic st → length st < fuel →
     ∃ t0 o, head (od_keys st) = Some t0 ∧
             resolves st t0 o ∧ o ≠ OutOfFuel ∧
             _compute_root_id fuel st = omap Some o) ∧
  (∀ fuel, 3 ≤ fuel → _compute_root_id fuel xyz_store = Ok (Some "Z")) ∧
  (∀ fuel, _compute_root_id fuel [] = Ok None).
Proof.
  split_and!.
  - intros [|[t0 r0] st] fuel Hne Hacyc Hfuel; [done|].
    destruct (root_walk_resolves _ Hacyc fuel [] t0) as (o & Hres & Hrun).
    + apply NoDup_nil_2.
    + by intros v ?%elem_of_nil.
    + by intros v ?%elem_of_nil.
    + simpl. rewrite decide_True by done. by eexists.
    + simpl in *. lia.
    + exists t0, o. split_and!; [done | done | by eapply resolves_not_out_of_fuel |].
      simpl. by rewrite Hrun.
  - intros fuel Hfuel. do 3 (destruct fuel as [|fuel]; [lia|]). reflexivity.
  - done.
Qed.

Lemma xyz_store_acyclic : is_a_acyclic xyz_store.
Proof.
  apply (is_a_acyclic_of_rank
           (λ x, if decide (x = "X") then 2 else if decide (x = "Y") then 1 else 0)).
  intros x p (r & Hget & Hp). simpl in Hget.
  destruct (decide ("X" = x)) as [<-|?].
  { injection Hget as <-. change (p ∈ ["Y"]) in Hp.
    apply list_elem_of_singleton in Hp as ->. vm_compute. lia. }
  destruct (decide ("Y" = x)) as [<-|?].
  { injection Hget as <-. change (p ∈ ["Z"]) in Hp.
    apply list_elem_of_singleton in Hp as ->. vm_compute. lia. }
  destruct (decide ("Z" = x)) as [<-|?]; [|done].
  injection Hget as <-. change (p ∈ []) in Hp. by apply elem_of_nil in Hp.
Qed.

Lemma compute_root_id_walks_to_root_witness :
  ∃ t0 o, head (od_keys xyz_store) = Some t0 ∧
          resolves xyz_store t0 o ∧ o ≠ OutOfFuel ∧
          _compute_root_id 4 xyz_store = omap Some o.
Proof.
  apply (proj1 compute_root_id_walks_to_root xyz_store 4);
    [discriminate | exact xyz_store_acyclic | simpl; lia].
Defined.

(** ** The breadth-first traversal *)

Lemma get_substree_loop_id_store fuel skip : ∀ st queue seen st' ys,
  get_substree_loop fuel id skip st queue seen = Ok (st', ys) → st' = st.
Proof.
  induction fuel as [|fuel IH]; intros st queue seen st' ys; [done|].
  cbn [get_substree_loop]. destruct queue as [|x queue]; [by intros [= <- _]|].
  destruct (od_get x st) as [r|] eqn:Hget; [|done].
  destruct (_ || _); [apply IH|].
  unfold id at 1 2. rewrite od_set_same by done.
  intros ([st1 ys1] & Hrun & [= <- _])%obind_Ok. by eapply IH.
Qed.

Lemma traverse_0 skip st queue seen : traverse 0 skip st queue seen = OutOfFuel.
Proof. done. Qed.

Lemma traverse_nil fuel skip st seen : traverse (S fuel) skip st [] seen = Ok [].
Proof. done. Qed.

Lemma traverse_cons fuel skip st x queue seen :
  traverse (S fuel) skip st (x :: queue) seen =
  match od_get x st with
  | None => Raise (KeyError x)
  | Some r =>
      if bool_decide (x ∈ seen) || skipped skip st x
      then traverse fuel skip st queue seen
      else omap (cons x) (traverse fuel skip st (queue ++ children_of r) ({[x]} ∪ seen))
  end.
Proof.
  unfold traverse, skipped. cbn [get_substree_loop].
  destruct (od_get x st) as [r|] eqn:Hget; [|done].
  destruct (_ || _); [done|].
  unfold id at 1 2. rewrite od_set_same by done.
  unfold id. by destruct (get_substree_loop _ _ _ _ _ _) as [[st1 ys1]| |].
Qed.

Lemma clean_reach_cons skip st x x' y :
  is_Some (od_get x st) → skipped skip st x = false → child_edge st x x' →
  clean_reach skip st x' y → clean_reach skip st x y.
Proof.
  intros Hx Hskip Hedge Hreach. induction Hreach as [Hx' Hs'|y z _ IH Hyz Hz Hsz].
  - eapply clean_reach_step; [by apply clean_reach_refl | done | done | done].
  - by eapply clean_reach_step.
Qed.

(** What a finished traversal has yielded: distinct ids outside [seen],
    each reached from the queue through records that are not skipped; and
    it has missed nothing, neither an entry of the queue nor a child of a
    yielded record. *)
Lemma traverse_spec skip st : ∀ fuel queue seen ys,
  traverse fuel skip st queue seen = Ok ys →
  NoDup ys ∧
  (∀ y, y ∈ ys → (y ∉ seen) ∧ ∃ x, x ∈ queue ∧ clean_reach skip st x y) ∧
  (∀ x, x ∈ queue →
     is_Some (od_get x st) ∧ (skipped skip st x = false → x ∈ seen ∨ x ∈ ys)) ∧
  (∀ y c, y ∈ ys → child_edge st y c →
     is_Some (od_get c st) ∧ (skipped skip st c = false → c ∈ seen ∨ c ∈ ys)).
Proof.
  induction fuel as [|fuel IH]; intros queue seen ys; [done|].
  destruct queue as [|x queue].
  { rewrite traverse_nil. intros [= <-]. split_and!.
    - apply NoDup_nil_2.
    - by intros y ?%elem_of_nil.
    - by intros y ?%elem_of_nil.
    - by intros y c ?%elem_of_nil. }
  rewrite traverse_cons. destruct (od_get x st) as [r|] eqn:Hget; [|done].
  destruct (bool_decide (x ∈ seen) || skipped skip st x) eqn:Hdiscard.
  - intros (Hnd & Hsound & Hqueue & Hchildren)%IH. split_and!; [done | | | done].
    + intros y Hy. destruct (Hsound y Hy) as (Hseen & x' & Hx' & Hreach).
      split; [done|]. exists x'. split; [by right | done].
    + intros x' [->|Hx']%elem_of_cons; [|by apply Hqueue].
      split; [by eexists|]. intros Hskip. left.
      rewrite Hskip, orb_false_r in Hdiscard. by apply bool_decide_eq_true in Hdiscard.
  - apply orb_false_iff in Hdiscard as [Hseen%bool_decide_eq_false Hskip].
    intros (ys' & (Hnd & Hsound & Hqueue & Hchildren)%IH & ->)%omap_Ok.
    split_and!.
    + apply NoDup_cons. split; [|done]. intros Hin.
      destruct (Hsound x Hin) as [Hx _]. set_solver.
    + intros y [->|Hy]%elem_of_cons.
      { split; [done|]. exists x. split; [left|].
        apply clean_reach_refl; [by eexists | done]. }
      destruct (Hsound y Hy) as (Hy' & x' & Hx' & Hreach).
      split; [set_solver|].
      apply elem_of_app in Hx' as [Hx'|Hx'].
      * exists x'. split; [by right | done].
      * exists x. split; [left|].
        eapply clean_reach_cons; [by eexists | done | by exists r | done].
    + intros x' [->|Hx']%elem_of_cons.
      { split; [by eexists|]. intros _. right. left. }
      destruct (Hqueue x') as [Hpresent Hx'']; [apply elem_of_app; by left|].
      split; [done|]. intros Hs. destruct (Hx'' Hs) as [?|?]; [|right; by right].
      set_solver.
    + intros y c [->|Hy]%elem_of_cons Hedge.
      * destruct Hedge as (r' & Hget' & Hc). replace r' with r in Hc by congruence.
        destruct (Hqueue c) as [Hpresent Hc']; [apply elem_of_app; by right|].
        split; [done|]. intros Hs. destruct (Hc' Hs) as [?|?]; [|right; by right].
        set_solver.
      * destruct (Hchildren y c Hy Hedge) as [Hpresent Hc'].
        split; [done|]. intros Hs. destruct (Hc' Hs) as [?|?]; [|right; by right].
        set_solver.
Qed.

Lemma pending_le st seen x : pending st ({[x]} ∪ seen) ≤ pending st seen.
Proof.
  unfold pending. induction st as [|[k rk] st IH]; csimpl; [done|].
  repeat case_bool_decide; try lia. set_solver.
Qed.

Lemma pending_process st seen x r :
  od_get x st = Some r → x ∉ seen →
  pending st ({[x]} ∪ seen) + length (children_of r) ≤ pending st seen.
Proof.
  unfold pending. induction st as [|[k rk] st IH]; csimpl; [done|].
  intros Hget Hx. destruct (decide (k = x)) as [->|Hne].
  - injection Hget as ->. rewrite bool_decide_eq_true_2 by set_solver.
    rewrite bool_decide_eq_false_2 by done.
    pose proof (pending_le st seen x) as Hle. unfold pending in Hle. lia.
  - specialize (IH Hget Hx). repeat case_bool_decide; try lia; set_solver.
Qed.

(** The traversal ends: every pop either shortens the queue or uses up the
    children of a record not processed before. *)
Lemma traverse_terminates skip st :
  children_closed st →
  ∀ fuel queue seen,
    (∀ x, x ∈ queue → is_Some (od_get x st)) →
    length queue + pending st seen < fuel →
    ∃ ys, traverse fuel skip st queue seen = Ok ys.
Proof.
  intros Hclosed. induction fuel as [|fuel IH]; intros queue seen Hq Hfuel; [lia|].
  destruct queue as [|x queue].
  { exists []. apply traverse_nil. }
  rewrite traverse_cons. destruct (Hq x) as [r Hget]; [left|]. rewrite Hget.
  destruct (bool_decide (x ∈ seen) || skipped skip st x) eqn:Hdiscard.
  - apply IH; [intros; apply Hq; by right | simpl in Hfuel; lia].
  - apply orb_false_iff in Hdiscard as [Hseen%bool_decide_eq_false _].
    destruct (IH (queue ++ children_of r) ({[x]} ∪ seen)) as [ys Hys].
    + intros y [Hy|Hy]%elem_of_app; [apply Hq; by right|].
      apply (Hclosed x). by exists r.
    + pose proof (pending_process _ _ _ _ Hget Hseen).
      rewrite length_app. simpl in Hfuel. lia.
    + exists (x :: ys). by rewrite Hys.
Qed.

Lemma fresh_discard skip st x l seen :
  bool_decide (x ∈ seen) || skipped skip st x = true →
  fresh skip st (x :: l) seen = fresh skip st l seen.
Proof. intros H. simpl. by rewrite H. Qed.

Lemma fresh_keep skip st x l seen :
  bool_decide (x ∈ seen) || skipped skip st x = false →
  fresh skip st (x :: l) seen = x :: fresh skip st l ({[x]} ∪ seen).
Proof. intros H. simpl. by rewrite H. Qed.

(** One level: when the queue starts with [frontier], the traversal first
    yields the fresh ids of [frontier] and then goes on with the queue
    that their children have extended. *)
Lemma traverse_level skip st : ∀ frontier fuel acc seen ys,
  traverse fuel skip st (frontier ++ acc) seen = Ok ys →
  ∃ fuel' ys',
    fuel' + length frontier = fuel ∧
    ys = fresh skip st frontier seen ++ ys' ∧
    traverse fuel' skip st (acc ++ (fresh skip st frontier seen ≫= children_ids st))
      (list_to_set (fresh skip st frontier seen) ∪ seen) = Ok ys'.
Proof.
  induction frontier as [|x frontier IH]; intros fuel acc seen ys Hrun.
  { exists fuel, ys. csimpl. rewrite app_nil_r, (left_id_L ∅ (∪)).
    split_and!; [lia | done | done]. }
  destruct fuel as [|fuel]; [done|].
  change ((x :: frontier) ++ acc) with (x :: (frontier ++ acc)) in Hrun.
  rewrite traverse_cons in Hrun.
  destruct (od_get x st) as [r|] eqn:Hget; [|done].
  destruct (bool_decide (x ∈ seen) || skipped skip st x) eqn:Hdiscard.
  - destruct (IH _ _ _ _ Hrun) as (fuel' & ys' & Hfuel & -> & Hrest).
    exists fuel', ys'. rewrite fresh_discard by done.
    split_and!; [simpl; lia | done | done].
  - apply omap_Ok in Hrun as (ys1 & Hrun & ->).
    rewrite <- (assoc_L (++)) in Hrun.
    destruct (IH _ _ _ _ Hrun) as (fuel' & ys' & Hfuel & -> & Hrest).
    exists fuel', ys'. rewrite fresh_keep by done.
    split_and!; [simpl; lia | done |].
    rewrite bind_cons. unfold children_ids at 1. rewrite Hget.
    rewrite (assoc_L (++)).
    replace (list_to_set (x :: fresh skip st frontier ({[x]} ∪ seen)) ∪ seen)
      with (list_to_set (fresh skip st frontier ({[x]} ∪ seen)) ∪ ({[x]} ∪ seen) : gset string)
      by set_solver.
    done.
Qed.

(** The order of the traversal is breadth-first, level after level. *)
Lemma traverse_levels skip st : ∀ fuel frontier seen ys,
  traverse fuel skip st frontier seen = Ok ys → bfs_levels skip st frontier seen ys.
Proof.
  induction fuel as [fuel IH] using lt_wf_ind. intros frontier seen ys Hrun.
  destruct frontier as [|x frontier].
  { destruct fuel; [done|]. rewrite traverse_nil in Hrun. injection Hrun as <-.
    apply bfs_levels_done. }
  rewrite <- (app_nil_r (x :: frontier)) in Hrun.
  destruct (traverse_level _ _ _ _ _ _ _ Hrun) as (fuel' & ys' & Hfuel & -> & Hrest).
  apply bfs_levels_next; [done|].
  apply (IH fuel'); [simpl in Hfuel; lia | done].
Qed.

Lemma clean_reach_present skip st x y :
  clean_reach skip st x y → is_Some (od_get y st) ∧ skipped skip st y = false.
Proof. by destruct 1. Qed.

Lemma clean_reach_rtc skip st x y :
  clean_reach skip st x y → rtc (child_edge st) x y.
Proof.
  induction 1 as [|y z _ IH Hyz _ _]; [done|]. by eapply rtc_r.
Qed.

Lemma children_closed_check_sound st :
  children_closed_check st = true → children_closed st.
Proof.
  unfold children_closed_check. intros Hall x y (r & Hget%od_get_Some_elem & Hy).
  rewrite forallb_forall in Hall. apply list_elem_of_In, Hall in Hget.
  rewrite forallb_forall in Hget. apply od_mem_true, Hget. by apply list_elem_of_In.
Qed.

Lemma get_substree_traverse fuel st root skip :
  is_Some (od_get root st) →
  get_substree fuel st root skip = traverse fuel skip st [root] ∅.
Proof.
  intros Hroot. unfold get_substree, for_in_substree, traverse.
  by rewrite confirm_id_valid_Ok.
Qed.

Lemma get_substree_Ok_inv fuel st root skip ys :
  get_substree fuel st root skip = Ok ys →
  is_Some (od_get root st) ∧ traverse fuel skip st [root] ∅ = Ok ys.
Proof.
  unfold get_substree, for_in_substree.
  destruct (_confirm_id_is_valid root st "root_id") as [[]| |] eqn:Hvalid;
    simpl; [|done|done].
  intros Hrun. split; [by eapply confirm_id_valid_inv | exact Hrun].
Qed.

Lemma traverse_root_spec skip st fuel root ys :
  traverse fuel skip st [root] ∅ = Ok ys →
  NoDup ys ∧ ∀ y, y ∈ ys ↔ clean_reach skip st root y.
Proof.
  intros (Hnd & Hsound & Hqueue & Hchildren)%traverse_spec. split; [done|].
  intros y. split.
  - intros Hy. destruct (Hsound y Hy) as (_ & x & ->%list_elem_of_singleton & Hreach).
    done.
  - induction 1 as [Hpresent Hskip|y z _ IH Hyz Hz Hskip].
    + destruct (Hqueue root) as [_ Hin]; [left|].
      destruct (Hin Hskip) as [?|?]; [set_solver | done].
    + destruct (Hchildren y z IH Hyz) as [_ Hin].
      destruct (Hin Hskip) as [?|?]; [set_solver | done].
Qed.

Lemma diamond_closed : children_closed diamond_store.
Proof. apply children_closed_check_sound. vm_compute. reflexivity. Qed.

Lemma diamond_fuel : S (total_children diamond_store) < 10.
Proof. vm_compute. lia. Qed.

Lemma diamond_root : is_Some (od_get "A" diamond_store).
Proof. by eexists. Qed.

(** What a returning traversal has yielded: no record twice, exactly the
    records reached from the root through records none of which is
    skipped, in breadth-first order. *)
Lemma get_substree_Ok_spec st root skip fuel ys :
  get_substree fuel st root skip = Ok ys →
  NoDup ys ∧
  (∀ y, y ∈ ys ↔ clean_reach skip st root y) ∧
  (∀ y, y ∈ ys → is_Some (od_get y st) ∧ rtc (child_edge st) root y) ∧
  bfs_levels skip st [root] ∅ ys.
Proof.
  intros [_ Hrun]%get_substree_Ok_inv.
  destruct (traverse_root_spec _ _ _ _ _ Hrun) as [Hnd Hiff].
  split_and!; [done | done | | by eapply traverse_levels].
  intros y Hy%Hiff. split; [by eapply clean_reach_present | by eapply clean_reach_rtc].
Qed.

(** C2 (amended).  On every store whose children ids are all keys of the
    store, acyclic or not, for every root id that is a key and every skip
    predicate, [get_substree] (with fuel beyond the number of children
    links) returns, and it yields no record twice, it yields exactly the
    records reached from the root along ['children'] links through
    records none of which is skipped (a record behind skipped records
    only is not yielded, skipped or not), and the order is breadth-first,
    with first-seen order among siblings, also when several paths lead to
    one descendant, as in the diamond A, B, C, D.  On a store with a child
    id that is no key the traversal need not return; when it does, what it
    yielded is characterised in the same way. *)
Theorem get_substree_breadth_first st root skip fuel :
  (children_closed st → is_Some (od_get root st) → S (total_children st) < fuel →
   ∃ ys, get_substree fuel st root skip = Ok ys ∧
         NoDup ys ∧
         (∀ y, y ∈ ys ↔ clean_reach skip st root y) ∧
         (∀ y, y ∈ ys → is_Some (od_get y st) ∧ rtc (child_edge st) root y) ∧
         bfs_levels skip st [root] ∅ ys) ∧
  (∀ ys, get_substree fuel st root skip = Ok ys →
     NoDup ys ∧
     (∀ y, y ∈ ys ↔ clean_reach skip st root y) ∧
     (∀ y, y ∈ ys → is_Some (od_get y st) ∧ rtc (child_edge st) root y) ∧
     bfs_levels skip st [root] ∅ ys) ∧
  get_substree 10 diamond_store "A" None = Ok ["A"; "B"; "C"; "D"].
Proof.
  split_and!.
  - intros Hclosed Hroot Hfuel.
    assert (∃ ys, get_substree fuel st root skip = Ok ys) as [ys Hrun].
    { rewrite get_substree_traverse by done.
      apply traverse_terminates; [done | |].
      + by intros x ->%list_elem_of_singleton.
      + unfold total_children in Hfuel. simpl. lia. }
    exists ys. split; [done|]. by eapply get_substree_Ok_spec.
  - intros ys. apply get_substree_Ok_spec.
  - vm_compute. reflexivity.
Qed.

Lemma get_substree_breadth_first_witness :
  ∃ ys,
    get_substree 10 diamond_store "A" None = Ok ys ∧
    NoDup ys ∧
    (∀ y, y ∈ ys ↔ clean_reach None diamond_store "A" y) ∧
    (∀ y, y ∈ ys → is_Some (od_get y diamond_store) ∧ rtc (child_edge diamond_store) "A" y) ∧
    bfs_levels None diamond_store ["A"] ∅ ys.
Proof.
  exact (proj1 (get_substree_breadth_first diamond_store "A" None 10)
           diamond_closed diamond_root diamond_fuel).
Defined.

Lemma chain_edge_R_B : child_edge chain_store "R" "B".
Proof.
  exists (<["children" := Multi ["B"]]> (<["id" := Single "R"]> ∅)).
  split; [reflexivity|]. change ("B" ∈ ["B"]). left.
Qed.

Lemma chain_edge_B_C : child_edge chain_store "B" "C".
Proof.
  exists (<["children" := Multi ["C"]]> (<["id" := Single "B"]> ∅)).
  split; [reflexivity|]. change ("C" ∈ ["C"]). left.
Qed.

(** C2, as stated, fails when a skipped record lies on the way: C is
    reachable from the root R via ['children'] links and is not skipped
    itself, yet it is not yielded, because the traversal does not expand
    the skipped B. *)
Lemma skipped_record_hides_descendants :
  get_substree 10 chain_store "R" (Some skip_B) = Ok ["R"] ∧
  rtc (child_edge chain_store) "R" "C" ∧
  skipped (Some skip_B) chain_store "C" = false ∧
  "C" ∉ ["R"].
Proof.
  split_and!.
  - vm_compute. reflexivity.
  - eapply rtc_l; [apply chain_edge_R_B|]. eapply rtc_l; [apply chain_edge_B_C|]. done.
  - vm_compute. reflexivity.
  - by intros [=]%list_elem_of_singleton.
Qed.

(** ** The generator and its consumer *)

Lemma od_get_alter f k k' st :
  od_get k' (od_alter f k st) = if decide (k = k') then f <$> od_get k st else od_get k' st.
Proof.
  unfold od_alter. destruct (od_get k st) as [r|] eqn:Hget.
  - rewrite od_get_set. by case_decide.
  - case_decide; [by subst|done].
Qed.

Lemma od_get_apply_body body ys : ∀ st k,
  NoDup ys →
  od_get k (apply_body body ys st)
  = if bool_decide (k ∈ ys) then body <$> od_get k st else od_get k st.
Proof.
  unfold apply_body. induction ys as [|y ys IH]; intros st k Hnd; [done|].
  apply NoDup_cons in Hnd as [Hy Hnd]. cbn [foldl]. rewrite IH by done.
  rewrite od_get_alter. destruct (decide (y = k)) as [->|Hne].
  - rewrite bool_decide_eq_false_2 by done. by rewrite bool_decide_eq_true_2 by left.
  - case_bool_decide as Hin.
    + by rewrite bool_decide_eq_true_2 by (by right).
    + rewrite bool_decide_eq_false_2; [done|].
      intros [?|?]%elem_of_cons; [by subst | done].
Qed.

(** Running the consumer between the yields gives what running it after
    the traversal gives, when it leaves the ['children'] alone: the
    generator reads a record only before it yields it. *)
Lemma get_substree_loop_traverse body skip st0 :
  (∀ r, children_of (body r) = children_of r) →
  ∀ fuel cur queue seen,
    (∀ k, k ∉ seen → od_get k cur = od_get k st0) →
    (∀ k, children_ids cur k = children_ids st0 k) →
    (∀ k, is_Some (od_get k cur) ↔ is_Some (od_get k st0)) →
    get_substree_loop fuel body skip cur queue seen
    = let! ys := traverse fuel skip st0 queue seen in Ok (apply_body body ys cur, ys).
Proof.
  intros Hbody. induction fuel as [|fuel IH]; intros cur queue seen Hout Hch Hpres; [done|].
  destruct queue as [|x queue]; [done|].
  rewrite traverse_cons. cbn [get_substree_loop].
  destruct (od_get x st0) as [r0|] eqn:Hget0.
  2:{ destruct (od_get x cur) eqn:Hget; [|done].
      assert (is_Some (od_get x st0)) as [? ?] by (apply Hpres; by eexists). congruence. }
  destruct (od_get x cur) as [r|] eqn:Hget.
  2:{ assert (is_Some (od_get x cur)) as [? ?] by (apply Hpres; by eexists). congruence. }
  destruct (decide (x ∈ seen)) as [Hseen|Hseen].
  { rewrite bool_decide_eq_true_2 by done. simpl. by apply IH. }
  rewrite bool_decide_eq_false_2 by done. simpl.
  assert (r = r0) as -> by (rewrite Hout in Hget by done; congruence).
  unfold skipped. rewrite Hget0.
  destruct (match skip with Some f => f r0 | None => false end) eqn:Hskip.
  { replace (match skip with Some skip0 => skip0 r0 | None => false end) with true.
    by apply IH. }
  replace (match skip with Some skip0 => skip0 r0 | None => false end) with false.
  rewrite Hbody. rewrite IH.
  - destruct (traverse fuel skip st0 (queue ++ children_of r0) ({[x]} ∪ seen));
      simpl; [|done|done].
    unfold apply_body. cbn [foldl].
    replace (od_alter body x cur) with (od_set x (body r0) cur); [done|].
    unfold od_alter. by rewrite Hget.
  - intros k Hk. rewrite od_get_set_ne by set_solver. apply Hout. set_solver.
  - intros k. unfold children_ids. rewrite od_get_set. case_decide as Hk.
    + subst k. by rewrite Hbody, Hget0.
    + apply Hch.
  - intros k. rewrite od_get_set. case_decide as Hk; [|apply Hpres].
    subst k. rewrite Hget0. split; by eexists.
Qed.

(** [for record in get_substree(...): body(record)] is the list of the
    traversal, then the body on each of its records. *)
Lemma for_in_substree_spec body fuel st root skip :
  (∀ r, children_of (body r) = children_of r) →
  for_in_substree fuel body st root skip
  = let! ys := get_substree fuel st root skip in Ok (apply_body body ys st, ys).
Proof.
  intros Hbody. unfold get_substree, for_in_substree.
  destruct (_confirm_id_is_valid root st "root_id") as [[]| |]; simpl; [|done|done].
  rewrite (get_substree_loop_traverse body skip st) by done.
  unfold traverse. by destruct (get_substree_loop fuel id skip st [root] ∅) as [[]| |].
Qed.




(** ** Category stamps *)

Lemma children_not_category : "children" ∉ category_tags.
Proof. intros [[=]|[=]%list_elem_of_singleton]%elem_of_cons. Qed.

Lemma name_not_category : "name" ∉ category_tags.
Proof. intros [[=]|[=]%list_elem_of_singleton]%elem_of_cons. Qed.

Lemma stamp_children a b c n r : children_of (stamp a b c n r) = children_of r.
Proof. unfold children_of. by rewrite stamp_other by apply children_not_category. Qed.

Lemma stamp_assigned a b c n r :
  a || b = true → is_category_already_assigned (stamp a b c n r) = true.
Proof.
  intros Hab. unfold is_category_already_assigned, stamp. apply orb_true_iff.
  destruct a; [left|right].
  - apply bool_decide_eq_true_2.
    destruct b; [rewrite lookup_insert_ne by done|]; rewrite lookup_insert_eq; by eexists.
  - destruct b; [|done]. apply bool_decide_eq_true_2.
    rewrite lookup_insert_eq. by eexists.
Qed.

Lemma stamp_false c n r : stamp false false c n r = r.
Proof. done. Qed.

Lemma child_edge_children_ids st x y : child_edge st x y ↔ y ∈ children_ids st x.
Proof.
  unfold child_edge, children_ids. split.
  - by intros (r & -> & Hy).
  - destruct (od_get x st) as [r|]; [eauto | by intros ?%elem_of_nil].
Qed.

Lemma same_except_children_ids tags st st' k :
  same_except tags st st' → "children" ∉ tags → children_ids st' k = children_ids st k.
Proof.
  intros Hsame Htag. unfold children_ids.
  destruct (od_get k st) as [r|] eqn:Hget.
  - destruct Hsame as [_ Hsame]. destruct (Hsame _ _ Hget) as (r' & -> & Hr').
    unfold children_of. by rewrite Hr'.
  - by rewrite (same_except_None _ _ _ _ Hsame Hget).
Qed.

Lemma same_except_present tags st st' k :
  same_except tags st st' → is_Some (od_get k st') ↔ is_Some (od_get k st).
Proof. intros [Hkeys _]. by rewrite !od_get_is_Some, Hkeys. Qed.

Lemma same_except_child_edge tags st st' x y :
  same_except tags st st' → "children" ∉ tags → child_edge st' x y ↔ child_edge st x y.
Proof.
  intros Hsame Htag. rewrite !child_edge_children_ids.
  by rewrite (same_except_children_ids _ _ _ _ Hsame Htag).
Qed.

Lemma same_except_category_name tags st st' c :
  same_except tags st st' → "name" ∉ tags → category_name_of st' c = category_name_of st c.
Proof.
  intros Hsame Htag. unfold category_name_of.
  destruct (od_get c st) as [r|] eqn:Hget.
  - destruct Hsame as [_ Hsame]. destruct (Hsame _ _ Hget) as (r' & -> & Hr').
    simpl. by rewrite Hr'.
  - by rewrite (same_except_None _ _ _ _ Hsame Hget).
Qed.

Lemma same_except_children_closed tags st st' :
  same_except tags st st' → "children" ∉ tags → children_closed st → children_closed st'.
Proof.
  intros Hsame Htag Hclosed x y Hedge.
  apply (same_except_present _ _ _ _ Hsame), (Hclosed x).
  by apply (same_except_child_edge _ _ _ _ _ Hsame Htag).
Qed.


Lemma assigned_od_get st st' k :
  od_get k st' = od_get k st → assigned st' k = assigned st k.
Proof. unfold assigned, skipped. by intros ->. Qed.


Lemma pending_od_set st seen k r r' :
  od_get k st = Some r → children_of r' = children_of r →
  pending (od_set k r' st) seen = pending st seen.
Proof.
  unfold pending. induction st as [|[k0 r0] st IH]; csimpl; [done|].
  intros Hget Hch. destruct (decide (k0 = k)) as [->|Hne]; csimpl.
  - injection Hget as ->. by rewrite Hch.
  - by rewrite IH.
Qed.

Lemma pending_apply_body body ys seen : ∀ st,
  (∀ r, children_of (body r) = children_of r) →
  pending (apply_body body ys st) seen = pending st seen.
Proof.
  unfold apply_body. induction ys as [|y ys IH]; intros st Hbody; [done|].
  cbn [foldl]. rewrite IH by done. unfold od_alter.
  destruct (od_get y st) as [r|] eqn:Hget; [|done].
  by eapply pending_od_set.
Qed.

(** One pass of the category loop: the traversal from [c] over the store
    as the pass finds it, then the stamp on every record it yielded. *)
Lemma category_pass_spec fuel a b c n st st' ys :
  for_in_substree fuel (stamp a b c n) st c (Some is_category_already_assigned)
    = Ok (st', ys) →
  is_Some (od_get c st) ∧
  traverse fuel (Some is_category_already_assigned) st [c] ∅ = Ok ys ∧
  st' = apply_body (stamp a b c n) ys st ∧
  NoDup ys ∧
  (∀ y, y ∈ ys ↔ clean_reach (Some is_category_already_assigned) st c y) ∧
  (∀ k, od_get k st' = if bool_decide (k ∈ ys)
                       then stamp a b c n <$> od_get k st else od_get k st).
Proof.
  rewrite for_in_substree_spec by apply stamp_children.
  intros (ys0 & [Hc Hrun]%get_substree_Ok_inv & [= <- <-])%obind_Ok.
  destruct (traverse_root_spec _ _ _ _ _ Hrun) as [Hnd Hiff].
  split_and!; [done..|]. intros k. by apply od_get_apply_body.
Qed.

Lemma category_loop_cons fuel a b c cs st :
  category_loop fuel a b (c :: cs) st =
  match od_get c st with
  | None => Raise (KeyError c)
  | Some rc =>
      let! (st', ys) :=
        for_in_substree fuel (stamp a b c (category_name_of st c)) st c
          (Some is_category_already_assigned) in
      let! (st'', trace) := category_loop fuel a b cs st' in
      Ok (st'', (c, ys) :: trace)
  end.
Proof.
  cbn [category_loop]. unfold category_name_of.
  by destruct (od_get c st) as [rc|].
Qed.

(** The passes of the category loop, when it stamps at all: no id is
    yielded twice, whether by one pass or by two; a yielded record was
    without a stamp before the loop and ends with the stamp of the
    category whose pass yielded it; every other record is left as it
    was. *)
Lemma category_loop_trace fuel a b :
  a || b = true →
  ∀ cs st st' trace,
    category_loop fuel a b cs st = Ok (st', trace) →
    trace.*1 = cs ∧
    NoDup (yielded trace) ∧
    (∀ y, y ∈ yielded trace → assigned st y = false) ∧
    (∀ c ys y, (c, ys) ∈ trace → y ∈ ys →
       ∃ r, od_get y st = Some r ∧
            od_get y st' = Some (stamp a b c (category_name_of st c) r)) ∧
    (∀ y, y ∉ yielded trace → od_get y st' = od_get y st).
Proof.
  intros Hab. unfold yielded.
  induction cs as [|c cs IH]; intros st st' trace.
  { intros [= <- <-]. split_and!; [done | apply NoDup_nil_2 | | | done].
    - by intros y ?%elem_of_nil.
    - by intros c ys y ?%elem_of_nil. }
  rewrite category_loop_cons. destruct (od_get c st) as [rc|] eqn:Hc; [|done].
  intros ([st1 ys] & Hpass & ([st2 trace'] & Hrest & [= <- <-])%obind_Ok)%obind_Ok.
  pose proof (for_in_substree_same_except category_tags _ _ _ _ _ _ _
                (λ r tag, stamp_other a b c _ r tag) Hpass) as Hsame.
  destruct (category_pass_spec _ _ _ _ _ _ _ _ Hpass)
    as (_ & _ & _ & Hnd & Hiff & Hget1).
  destruct (IH _ _ _ Hrest) as (Hfst & Hnd' & Hfresh & Hstamps & Hothers).
  assert (∀ y, y ∈ ys → assigned st1 y = true) as Hstamped.
  { intros y Hy. destruct (clean_reach_present _ _ _ _ (proj1 (Hiff y) Hy)) as [[r Hr] _].
    unfold assigned, skipped. rewrite Hget1, bool_decide_eq_true_2, Hr by done.
    simpl. by apply stamp_assigned. }
  assert (∀ y, y ∈ trace' ≫= snd → y ∉ ys) as Hdisjoint.
  { intros y Hy Hin. apply Hfresh in Hy. apply Hstamped in Hin. congruence. }
  assert (∀ y, y ∉ ys → od_get y st1 = od_get y st) as Hkeep.
  { intros y Hy. by rewrite Hget1, bool_decide_eq_false_2. }
  csimpl. split_and!.
  - by rewrite Hfst.
  - apply NoDup_app. split_and!; [done | | done].
    intros y Hy Hin. by apply (Hdisjoint y).
  - intros y [Hy|Hy]%elem_of_app.
    + by destruct (clean_reach_present _ _ _ _ (proj1 (Hiff y) Hy)).
    + rewrite <- (assigned_od_get st st1) by (by apply Hkeep, Hdisjoint).
      by apply Hfresh.
  - intros c0 ys0 y [[= -> ->]|Hin]%elem_of_cons Hy.
    + destruct (clean_reach_present _ _ _ _ (proj1 (Hiff y) Hy)) as [[r Hr] _].
      exists r. split; [done|]. rewrite Hothers.
      * by rewrite Hget1, bool_decide_eq_true_2, Hr.
      * intros Hin. by apply (Hdisjoint y).
    + destruct (Hstamps c0 ys0 y Hin Hy) as (r & Hr & Hr').
      exists r. rewrite <- Hkeep.
      * split; [done|]. rewrite Hr'.
        by rewrite (same_except_category_name _ _ _ _ Hsame name_not_category).
      * apply Hdisjoint. apply list_elem_of_bind. by exists (c0, ys0).
  - intros y Hy. rewrite Hothers, Hkeep; [done | |]; intros Hin; apply Hy;
      apply elem_of_app; [by left | by right].
Qed.




(** The loop returns on a store whose children are all keys. *)
Lemma category_loop_returns fuel a b : ∀ cs st,
  children_closed st → (∀ c, c ∈ cs → is_Some (od_get c st)) →
  S (total_children st) < fuel →
  ∃ st' trace, category_loop fuel a b cs st = Ok (st', trace).
Proof.
  induction cs as [|c cs IH]; intros st Hclosed Hcs Hfuel; [by eexists _, _|].
  rewrite category_loop_cons. destruct (Hcs c) as [rc Hc]; [left|]. rewrite Hc.
  rewrite for_in_substree_spec by apply stamp_children.
  rewrite get_substree_traverse by (by eexists).
  destruct (traverse_terminates (Some is_category_already_assigned) st Hclosed
              fuel [c] ∅) as [ys Hys].
  { intros x ->%list_elem_of_singleton. by eexists. }
  { unfold total_children in Hfuel. simpl. lia. }
  rewrite Hys. cbn [obind].
  set (st1 := apply_body _ ys st).
  assert (same_except category_tags st st1) as Hsame.
  { eapply (for_in_substree_same_except category_tags
              (stamp a b c (category_name_of st c)) fuel st c
              (Some is_category_already_assigned) st1 ys).
    - intros r tag. apply stamp_other.
    - rewrite for_in_substree_spec by apply stamp_children.
      rewrite get_substree_traverse by (by eexists). by rewrite Hys. }
  destruct (IH st1) as (st' & trace & Hrest).
  - by eapply same_except_children_closed; [| apply children_not_category |].
  - intros c0 Hc0. apply (same_except_present _ _ _ _ Hsame), Hcs. by right.
  - unfold total_children, st1. by rewrite pending_apply_body by apply stamp_children.
  - rewrite Hrest. by eexists _, _.
Qed.

Lemma compute_category_column_loop fuel st root a b :
  is_Some (od_get root st) →
  compute_category_column fuel st root a b
  = omap fst (category_loop fuel a b (children_ids st root) st).
Proof.
  intros [r Hroot]. unfold compute_category_column, children_ids.
  rewrite confirm_id_valid_Ok by (by eexists). cbn [obind]. rewrite Hroot.
  by destruct (children_of r).
Qed.

Lemma compute_category_column_Ok_inv fuel st root a b st' :
  compute_category_column fuel st root a b = Ok st' →
  is_Some (od_get root st) ∧
  ∃ trace, category_loop fuel a b (children_ids st root) st = Ok (st', trace).
Proof.
  intros Hrun.
  assert (is_Some (od_get root st)) as Hroot.
  { unfold compute_category_column in Hrun.
    apply obind_Ok in Hrun as (u & Hvalid & _). by eapply confirm_id_valid_inv. }
  split; [done|]. rewrite compute_category_column_loop in Hrun by done.
  apply omap_Ok in Hrun as ([st1 trace] & Hrun & ->). by exists trace.
Qed.

Lemma compute_category_column_returns fuel st root a b :
  children_closed st → is_Some (od_get root st) → S (total_children st) < fuel →
  ∃ st', compute_category_column fuel st root a b = Ok st'.
Proof.
  intros Hclosed Hroot Hfuel. rewrite compute_category_column_loop by done.
  destruct (category_loop_returns fuel a b (children_ids st root) st)
    as (st' & trace & Hrun); [done | | done |].
  - intros c Hc%child_edge_children_ids. by apply (Hclosed root).
  - exists st'. by rewrite Hrun.
Qed.




Lemma rtc_child_edge_same tags st st' x y :
  same_except tags st st' → "children" ∉ tags →
  rtc (child_edge st') x y → rtc (child_edge st) x y.
Proof.
  intros Hsame Htag. apply rtc_subrel. intros a c.
  by apply (same_except_child_edge _ _ _ _ _ Hsame Htag).
Qed.

(** A record that the loop changed descends from one of the categories. *)
Lemma category_loop_changes fuel a b : ∀ cs st st' trace,
  category_loop fuel a b cs st = Ok (st', trace) →
  ∀ k, od_get k st' ≠ od_get k st → ∃ c, c ∈ cs ∧ rtc (child_edge st) c k.
Proof.
  induction cs as [|c cs IH]; intros st st' trace.
  { by intros [= <- _] k. }
  rewrite category_loop_cons. destruct (od_get c st) as [rc|] eqn:Hc; [|done].
  intros ([st1 ys] & Hpass & ([st2 trace'] & Hrest & [= <- _])%obind_Ok)%obind_Ok k Hk.
  pose proof (for_in_substree_same_except category_tags _ _ _ _ _ _ _
                (λ r tag, stamp_other a b c _ r tag) Hpass) as Hsame.
  destruct (category_pass_spec _ _ _ _ _ _ _ _ Hpass) as (_ & _ & _ & _ & Hiff & Hget1).
  destruct (decide (od_get k st1 = od_get k st)) as [Heq|Hne].
  - destruct (IH _ _ _ Hrest k) as (c' & Hc' & Hreach); [congruence|].
    exists c'. split; [by right|].
    by eapply rtc_child_edge_same; [| apply children_not_category |].
  - exists c. split; [left|]. rewrite Hget1 in Hne.
    case_bool_decide as Hin; [|done].
    by eapply clean_reach_rtc, Hiff.
Qed.

(** C10.  For every store and root id: on a store whose children are all
    keys, with a valid root id and fuel beyond the number of children
    links, [compute_category_column] returns; and whenever it returns, the
    store has the same keys, every record agrees with its former state on
    every tag but ['category_id'] and ['category_name'], a record that
    differs at all is reachable via ['children'] links from a direct child
    of the root, and, the children graph being acyclic, the root record
    itself is unchanged. *)
Theorem compute_category_column_frame fuel st root add_id add_name :
  (children_closed st → is_Some (od_get root st) → S (total_children st) < fuel →
   ∃ st', compute_category_column fuel st root add_id add_name = Ok st') ∧
  (∀ st', compute_category_column fuel st root add_id add_name = Ok st' →
     od_keys st' = od_keys st ∧
     (∀ k r, od_get k st = Some r →
        ∃ r', od_get k st' = Some r' ∧
          (∀ tag, tag ∉ category_tags → r' !! tag = r !! tag) ∧
          (r' ≠ r → ∃ c, c ∈ children_ids st root ∧ rtc (child_edge st) c k)) ∧
     (children_acyclic st → od_get root st' = od_get root st)).
Proof.
  split; [apply compute_category_column_returns|].
  intros st' Hrun.
  pose proof (compute_category_column_same_except _ _ _ _ _ _ Hrun) as Hsame.
  destruct (compute_category_column_Ok_inv _ _ _ _ _ _ Hrun) as (_ & trace & Hloop).
  pose proof (category_loop_changes _ _ _ _ _ _ _ Hloop) as Hchanges.
  split_and!; [apply Hsame | |].
  - intros k r Hget. destruct Hsame as [_ Hsame].
    destruct (Hsame _ _ Hget) as (r' & Hget' & Hr').
    exists r'. split_and!; [done | done |].
    intros Hne. apply Hchanges. congruence.
  - intros Hacyclic.
    destruct (decide (od_get root st' = od_get root st)) as [|Hne]; [done|].
    destruct (Hchanges root Hne) as (c & Hc%child_edge_children_ids & Hreach).
    destruct (Hacyclic root). eapply tc_rtc_r; [by apply tc_once | done].
Qed.

Lemma children_acyclic_of_rank (rank : string → nat) st :
  (∀ x y, child_edge st x y → rank y < rank x) → children_acyclic st.
Proof.
  intros Hrank x Hx.
  assert (∀ a b, tc (child_edge st) a b → rank b < rank a) as Htc.
  { induction 1 as [a b Hab|a b c Hab _ IH]; [by apply Hrank|].
    apply Hrank in Hab. lia. }
  apply Htc in Hx. lia.
Qed.

Lemma diamond_acyclic : children_acyclic diamond_store.
Proof.
  apply (children_acyclic_of_rank
           (λ x, if decide (x = "A") then 2 else if decide (x = "D") then 0 else 1)).
  intros x y (r & Hget & Hy). simpl in Hget.
  destruct (decide ("A" = x)) as [<-|?].
  { injection Hget as <-. change (y ∈ ["B"; "C"]) in Hy.
    apply elem_of_cons in Hy as [->|Hy%list_elem_of_singleton]; [|subst y];
      vm_compute; lia. }
  destruct (decide ("B" = x)) as [<-|?].
  { injection Hget as <-. change (y ∈ ["D"]) in Hy.
    apply list_elem_of_singleton in Hy as ->. vm_compute. lia. }
  destruct (decide ("C" = x)) as [<-|?].
  { injection Hget as <-. change (y ∈ ["D"]) in Hy.
    apply list_elem_of_singleton in Hy as ->. vm_compute. lia. }
  destruct (decide ("D" = x)) as [<-|?]; [|done].
  injection Hget as <-. change (y ∈ []) in Hy. by apply elem_of_nil in Hy.
Qed.

Lemma compute_category_column_frame_witness :
  ∃ st',
    compute_category_column 10 diamond_store "A" true true = Ok st' ∧
    od_keys st' = od_keys diamond_store ∧
    (∀ k r, od_get k diamond_store = Some r →
       ∃ r', od_get k st' = Some r' ∧
         (∀ tag, tag ∉ category_tags → r' !! tag = r !! tag) ∧
         (r' ≠ r →
          ∃ c, c ∈ children_ids diamond_store "A" ∧ rtc (child_edge diamond_store) c k)) ∧
    od_get "A" st' = od_get "A" diamond_store.
Proof.
  destruct (compute_category_column_frame 10 diamond_store "A" true true)
    as (Hreturns & Hframe).
  destruct (Hreturns diamond_closed diamond_root diamond_fuel) as [st' Hrun].
  destruct (Hframe st' Hrun) as (Hkeys & Hrecords & Hroot).
  exists st'. exact (conj Hrun (conj Hkeys (conj Hrecords (Hroot diamond_acyclic)))).
Defined.

(** ** Which category a record receives *)

(** A path through records that are not skipped is a clean path. *)
Lemma rtc_clean_reach skip st c y :
  children_closed st → is_Some (od_get c st) →
  rtc (child_edge st) c y →
  (∀ z, rtc (child_edge st) z y → skipped skip st z = false) →
  clean_reach skip st c y.
Proof.
  intros Hclosed Hc Hreach. revert y Hreach.
  apply (rtc_ind_r (λ y, (∀ z, rtc (child_edge st) z y → skipped skip st z = false) →
                         clean_reach skip st c y)).
  - intros Hclean. apply clean_reach_refl; [done | by apply Hclean].
  - intros y' y Hcy' Hedge IH Hclean.
    eapply clean_reach_step; [| done | by eapply Hclosed | by apply Hclean].
    apply IH. intros z Hz. apply Hclean. by eapply rtc_r.
Qed.

(** The passes in terms of the graph: with [done] the categories of the
    passes that ran before, and the stamped records those that descend
    from one of them, each pass yields the descendants of its category that
    descend from no earlier one. *)
Lemma category_loop_reach fuel a b st0 :
  a || b = true → children_closed st0 →
  ∀ cs done st st' trace,
    same_except category_tags st0 st →
    (∀ k, assigned st k = true ↔ ∃ c', c' ∈ done ∧ rtc (child_edge st0) c' k) →
    category_loop fuel a b cs st = Ok (st', trace) →
    ∀ i c ys, trace !! i = Some (c, ys) →
      ∀ y, y ∈ ys ↔
           rtc (child_edge st0) c y ∧
           ∀ c', c' ∈ done ++ take i cs → ¬ rtc (child_edge st0) c' y.
Proof.
  intros Hab Hclosed0. induction cs as [|c cs IH]; intros done st st' trace Hsame0 Hassigned.
  { by intros [= <- <-] i c ys. }
  rewrite category_loop_cons. destruct (od_get c st) as [rc|] eqn:Hc; [|done].
  intros ([st1 ys] & Hpass & ([st2 trace'] & Hrest & [= <- <-])%obind_Ok)%obind_Ok.
  pose proof (for_in_substree_same_except category_tags _ _ _ _ _ _ _
                (λ r tag, stamp_other a b c _ r tag) Hpass) as Hsame.
  destruct (category_pass_spec _ _ _ _ _ _ _ _ Hpass) as (_ & _ & _ & _ & Hiff & Hget1).
  assert (children_closed st) as Hclosed
    by (by eapply same_except_children_closed; [| apply children_not_category |]).
  assert (∀ x y, rtc (child_edge st) x y ↔ rtc (child_edge st0) x y) as Hrtc.
  { intros x y. split; apply rtc_subrel; intros u v;
      by apply (same_except_child_edge _ _ _ _ _ Hsame0 children_not_category). }
  assert (∀ y, y ∈ ys ↔
               rtc (child_edge st0) c y ∧ ∀ c', c' ∈ done → ¬ rtc (child_edge st0) c' y)
    as Hys.
  { intros y. rewrite Hiff. split.
    - intros Hreach. split; [by apply Hrtc, (clean_reach_rtc _ _ _ _ Hreach)|].
      intros c' Hc' Hc'y. destruct (clean_reach_present _ _ _ _ Hreach) as [_ Hskip].
      assert (assigned st y = true) as Hy by (apply Hassigned; eauto).
      unfold assigned in Hy. congruence.
    - intros [Hreach Hnone]. apply rtc_clean_reach; [done | by eexists | by apply Hrtc |].
      intros z Hz%Hrtc. destruct (skipped _ st z) eqn:Hskip; [|done].
      apply Hassigned in Hskip as (c' & Hc' & Hc'z).
      destruct (Hnone c' Hc'). by etrans. }
  intros [|i] c0 ys0 Hi y.
  - injection Hi as <- <-. rewrite take_0, app_nil_r. apply Hys.
  - cbn in Hi.
    assert (same_except category_tags st0 st1) as Hsame1 by (by eapply same_except_trans).
    assert (∀ k, assigned st1 k = true ↔
                 ∃ c', c' ∈ done ++ [c] ∧ rtc (child_edge st0) c' k) as Hassigned1.
    { intros k. unfold assigned, skipped. rewrite Hget1.
      case_bool_decide as Hin.
      - destruct (clean_reach_present _ _ _ _ (proj1 (Hiff k) Hin)) as [[r Hr] _].
        rewrite Hr. simpl. rewrite stamp_assigned by done.
        split; [|done]. intros _. exists c. split; [apply elem_of_app; right; left|].
        by apply Hys.
      - fold (skipped (Some is_category_already_assigned) st k). fold (assigned st k).
        rewrite Hassigned. split.
        + intros (c' & Hc' & Hreach). exists c'. split; [apply elem_of_app; by left | done].
        + intros (c' & [Hc'|Hc'%list_elem_of_singleton]%elem_of_app & Hreach); [by eauto|].
          subst c'.
          destruct (assigned st k) eqn:Hk; [by apply Hassigned|].
          exfalso. apply Hin, Hys. split; [done|].
          intros c' Hc' Hc'k. assert (assigned st k = true) by (apply Hassigned; eauto).
          congruence. }
    rewrite (IH (done ++ [c]) st1 st2 trace' Hsame1 Hassigned1 Hrest i c0 ys0 Hi y).
    cbn [take]. by rewrite <- (assoc_L (++)).
Qed.

Lemma stamp_category_id b c n r :
  stamp true b c n r !! "category_id" = Some (Single c).
Proof.
  unfold stamp. destruct b; [rewrite lookup_insert_ne by done|]; by rewrite lookup_insert_eq.
Qed.

Lemma stamp_category_name a c n r :
  stamp a true c n r !! "category_name" = Some n.
Proof. unfold stamp. by rewrite lookup_insert_eq. Qed.

Lemma diamond_stamps :
  (od_get "B" diamond_stamped ≫= λ r, r !! "category_id") = Some (Single "B") ∧
  (od_get "D" diamond_stamped ≫= λ r, r !! "category_id") = Some (Single "B") ∧
  (od_get "C" diamond_stamped ≫= λ r, r !! "category_id") = Some (Single "C") ∧
  (od_get "D" diamond_stamped ≫= λ r, r !! "category_name") = Some (Single "b") ∧
  (od_get "A" diamond_stamped ≫= λ r, r !! "category_id") = None.
Proof. split_and!; vm_compute; reflexivity. Qed.

(** C5.  When [compute_category_column] runs with at least one of its two
    flags and a valid root id: on a store whose children are all keys it
    returns (fuel beyond the number of children links); and whenever it
    returns, its passes over the root's children, in the order of
    [root.children], are such that no record is yielded, hence stamped,
    more than once; a record yielded by the pass of category [c] had no
    stamp before and ends with the id and the name of [c], which no later
    pass overwrites; every other record is left as it was.  On a store
    without stamps whose children are all keys, the pass of [c] yields
    exactly the descendants of [c] that descend from no child listed before
    [c]: a record reachable from several children of the root gets the
    category of the first-listed one.  In the diamond A, B, C, D with
    children order B, C, both B and D get category B and C gets
    category C. *)
Theorem category_of_first_listed_child fuel st root add_id add_name :
  add_id || add_name = true →
  (children_closed st → is_Some (od_get root st) → S (total_children st) < fuel →
   ∃ st', compute_category_column fuel st root add_id add_name = Ok st') ∧
  (∀ st', compute_category_column fuel st root add_id add_name = Ok st' →
     ∃ trace,
       category_loop fuel add_id add_name (children_ids st root) st = Ok (st', trace) ∧
       trace.*1 = children_ids st root ∧
       NoDup (yielded trace) ∧
       (∀ c ys y, (c, ys) ∈ trace → y ∈ ys →
          ∃ r r', od_get y st = Some r ∧ assigned st y = false ∧
                  od_get y st' = Some r' ∧
                  r' = stamp add_id add_name c (category_name_of st c) r ∧
                  (add_id = true → r' !! "category_id" = Some (Single c)) ∧
                  (add_name = true →
                   r' !! "category_name" = Some (category_name_of st c))) ∧
       (∀ y, y ∉ yielded trace → od_get y st' = od_get y st) ∧
       (children_closed st → (∀ k, assigned st k = false) →
        ∀ i c ys, trace !! i = Some (c, ys) →
          ∀ y, y ∈ ys ↔
               rtc (child_edge st) c y ∧
               ∀ c', c' ∈ take i (children_ids st root) → ¬ rtc (child_edge st) c' y)) ∧
  compute_category_column 10 diamond_store "A" true true = Ok diamond_stamped ∧
  (od_get "B" diamond_stamped ≫= λ r, r !! "category_id") = Some (Single "B") ∧
  (od_get "D" diamond_stamped ≫= λ r, r !! "category_id") = Some (Single "B") ∧
  (od_get "C" diamond_stamped ≫= λ r, r !! "category_id") = Some (Single "C").
Proof.
  intros Hab.
  split_and!; [apply compute_category_column_returns | | apply diamond_categories
               | apply diamond_stamps..].
  intros st' Hrun.
  destruct (compute_category_column_Ok_inv _ _ _ _ _ _ Hrun) as (_ & trace & Hloop).
  destruct (category_loop_trace _ _ _ Hab _ _ _ _ Hloop)
    as (Hfst & Hnd & Hfresh & Hstamps & Hothers).
  exists trace. split_and!; [done | done | done | | done |].
  - intros c ys y Hin Hy. destruct (Hstamps c ys y Hin Hy) as (r & Hr & Hr').
    exists r, (stamp add_id add_name c (category_name_of st c) r).
    split_and!; [done | | done | done | |].
    + apply Hfresh. unfold yielded. apply list_elem_of_bind. by exists (c, ys).
    + intros ->. apply stamp_category_id.
    + intros ->. apply stamp_category_name.
  - intros Hclosed Hnone i c ys Hi y.
    rewrite (category_loop_reach fuel add_id add_name st Hab Hclosed
               (children_ids st root) [] st st' trace
               (same_except_refl _ _)); [done | | done | done].
    intros k. rewrite Hnone. split; [done|].
    by intros (c' & ?%elem_of_nil & _).
Qed.

Lemma diamond_unstamped : ∀ k, assigned diamond_store k = false.
Proof.
  intros k. unfold assigned, skipped. simpl.
  repeat (case_decide; [vm_compute; reflexivity|]). done.
Qed.

Lemma category_of_first_listed_child_witness :
  ∃ st' trace,
    compute_category_column 10 diamond_store "A" true true = Ok st' ∧
    category_loop 10 true true (children_ids diamond_store "A") diamond_store
      = Ok (st', trace) ∧
    trace.*1 = children_ids diamond_store "A" ∧
    NoDup (yielded trace) ∧
    ∀ i c ys, trace !! i = Some (c, ys) →
      ∀ y, y ∈ ys ↔
           rtc (child_edge diamond_store) c y ∧
           ∀ c', c' ∈ take i (children_ids diamond_store "A") →
                 ¬ rtc (child_edge diamond_store) c' y.
Proof.
  destruct (category_of_first_listed_child 10 diamond_store "A" true true eq_refl)
    as (Hreturns & Hspec & _).
  destruct (Hreturns diamond_closed diamond_root diamond_fuel) as [st' Hrun].
  destruct (Hspec st' Hrun) as (trace & Hloop & Hfst & Hnd & _ & _ & Hreach).
  exists st', trace.
  exact (conj Hrun (conj Hloop (conj Hfst (conj Hnd
           (Hreach diamond_closed diamond_unstamped))))).
Defined.

(** * Further properties of the code *)

(** ** The format of a tag line *)

Lemma split_head_after_first c s rest :
  Py.after_first c s = Some rest → s = Py.split_head c s +:+ String c rest.
Proof.
  induction s as [|a s IH]; simpl; [done|].
  destruct (Ascii.eqb a c) eqn:Hac.
  - apply Ascii.eqb_eq in Hac as ->. by intros [= ->].
  - intros Hrest. rewrite append_cons. f_equal. by apply IH.
Qed.

Lemma contains_split_head c s : contains c (Py.split_head c s) = false.
Proof.
  induction s as [|a s IH]; simpl; [done|].
  destruct (Ascii.eqb a c) eqn:Hac; [done|]. simpl. by rewrite Hac, IH.
Qed.

Lemma match_tag_and_value_Some text tag v :
  match_tag_and_value text = Some (tag, v) ↔
  text = tag +:+ ":" +:+ v ∧ tag ≠ "" ∧ contains ":" tag = false ∧ v ≠ "".
Proof.
  split.
  - unfold match_tag_and_value.
    destruct (Py.after_first ":" text) as [rest|] eqn:Hrest; [|done].
    repeat case_bool_decide; try done. intros [= <- <-].
    split_and!; [by apply split_head_after_first | done | apply contains_split_head | done].
  - intros (-> & Htag & Hcolon & Hv). by apply match_tag_and_value_append.
Qed.

(** X1.  What a line of a [Term] stanza is taken for, with [text] the line
    without its trailing newlines and its comment: an empty text is
    skipped; a text [tag:v] with a non-empty tag free of colons and a
    non-empty [v] gives the tag and the trimmed [v]; every other text
    raises the format error: a text without colon, one that starts with
    the colon, one with nothing after its first colon. *)
Theorem tag_line_format line :
  (Py.split_head "!" (Py.rstrip [Py.newline] line) = "" → parse_tag_line line = Ok None) ∧
  (∀ tag v,
     Py.split_head "!" (Py.rstrip [Py.newline] line) = tag +:+ ":" +:+ v →
     tag ≠ "" → contains ":" tag = false → v ≠ "" →
     parse_tag_line line = Ok (Some (tag, Py.strip Py.whitespace v))) ∧
  (Py.split_head "!" (Py.rstrip [Py.newline] line) ≠ "" →
   (∀ tag v,
      Py.split_head "!" (Py.rstrip [Py.newline] line) = tag +:+ ":" +:+ v →
      contains ":" tag = false → tag = "" ∨ v = "") →
   parse_tag_line line
   = Raise (ValueError ("Unexpected line format: "
                        +:+ Py.split_head "!" (Py.rstrip [Py.newline] line)))).
Proof.
  unfold parse_tag_line.
  destruct (Py.split_head "!" (Py.rstrip [Py.newline] line)) as [|a text] eqn:Htext.
  { split_and!; [done | | done]. intros tag v Heq Htag. by destruct tag. }
  split_and!; [done | |].
  - intros tag v Heq Htag Hcolon Hv. cbn [String.length bool_decide].
    rewrite bool_decide_eq_false_2 by done.
    by rewrite (proj2 (match_tag_and_value_Some _ tag v)).
  - intros _ Hnone. rewrite bool_decide_eq_false_2 by done.
    destruct (match_tag_and_value (String a text)) as [[tag v]|] eqn:Hmatch; [|done].
    apply match_tag_and_value_Some in Hmatch as (Heq & Htag & Hcolon & Hv).
    by destruct (Hnone tag v Heq Hcolon).
Qed.

Lemma tag_line_format_witness :
  parse_tag_line ("name" +:+ nl) = Raise (ValueError "Unexpected line format: name") ∧
  parse_tag_line ("name: x" +:+ nl) = Ok (Some ("name", "x")) ∧
  parse_tag_line ("! only a comment" +:+ nl) = Ok None.
Proof.
  split_and!.
  - refine (proj2 (proj2 (tag_line_format ("name" +:+ nl))) _ _).
    + discriminate.
    + intros [|a [|b [|c [|d [|e tag]]]]] v Heq Hcolon;
        [by left | cbv in Heq; discriminate Heq..].
  - exact (proj1 (proj2 (tag_line_format ("name: x" +:+ nl))) "name" " x"
             eq_refl (λ H, eq_ind "name" (λ t, if t is EmptyString then False else True) I "" H)
             eq_refl
             (λ H, eq_ind " x" (λ t, if t is EmptyString then False else True) I "" H)).
  - exact (proj1 (tag_line_format ("! only a comment" +:+ nl)) eq_refl).
Defined.

(** ** Stanzas and records *)

Lemma parse_lines_app before after : ∀ s0,
  parse_lines (before ++ after) s0
  = let! s := parse_lines before s0 in parse_lines after s.
Proof.
  induction before as [|l before IH]; intros s0; [done|].
  cbn [app parse_lines]. destruct (parse_line l s0) as [s1| |]; simpl; [apply IH|done..].
Qed.

(** X2.  A tag line of a [Term] stanza that comes before any [id:] line of
    the input, and is not an [id:] line itself, ends the parse with a
    [TypeError]: there is no current record yet to hold the tag. *)
Theorem tag_before_first_id_raises before line after s tag value :
  parse_lines before initial_parser_state = Ok s →
  current_record s = None → current_stanza_type s = Some "Term" →
  Py.startswith "[" line = false →
  parse_tag_line line = Ok (Some (tag, value)) → tag ≠ "id" →
  parse_obo_format (before ++ line :: after) = Raise TypeError.
Proof.
  intros Hbefore Hcur Hterm Hbr Hline Hid.
  apply (parse_obo_format_aborts before line after s); [done|].
  unfold parse_line. rewrite Hbr, Hterm, bool_decide_eq_true_2 by done.
  cbn [negb]. rewrite Hline. cbn [obind]. unfold record_tag.
  rewrite bool_decide_eq_false_2 by done. by rewrite Hcur.
Qed.

Lemma term_header_state :
  parse_lines ["[Term]" +:+ nl] initial_parser_state
  = Ok (mk_parser_state [] (Some "Term") None).
Proof. reflexivity. Qed.

Lemma tag_before_first_id_raises_witness :
  parse_obo_format name_before_id_lines = Raise TypeError.
Proof.
  exact (tag_before_first_id_raises ["[Term]" +:+ nl] ("name: x" +:+ nl) []
           (mk_parser_state [] (Some "Term") None) "name" "x"
           term_header_state eq_refl eq_refl eq_refl eq_refl
           (λ H, eq_ind "name" (λ t, if t is String "n" _ then True else False) I "id" H)).
Defined.

(** X3.  Outside a [Term] stanza nothing is read: lines that are no stanza
    headers leave the parser as it is, whatever they hold, so the file
    header and the stanzas of other types can neither add to the store nor
    raise the format error. *)
Theorem lines_outside_term_are_ignored lines s :
  current_stanza_type s ≠ Some "Term" →
  Forall (λ line, Py.startswith "[" line = false) lines →
  parse_lines lines s = Ok s.
Proof.
  intros Hterm. induction 1 as [|line lines Hline _ IH]; [done|].
  cbn [parse_lines]. unfold parse_line at 1.
  rewrite Hline, bool_decide_eq_false_2 by done. cbn [negb obind]. apply IH.
Qed.

Lemma lines_outside_term_are_ignored_witness :
  parse_lines ["format-version: 1.2" +:+ nl; "no colon here" +:+ nl] initial_parser_state
  = Ok initial_parser_state.
Proof.
  apply (lines_outside_term_are_ignored
           ["format-version: 1.2" +:+ nl; "no colon here" +:+ nl] initial_parser_state).
  - discriminate.
  - repeat constructor.
Defined.

(** X4.  An [id:] line always succeeds and starts a fresh record: the
    store then holds under the id a record with nothing but that ['id'],
    also when the id was in the store before, in which case the former
    record is lost and the key keeps its place; every other record is
    untouched, and a new key goes last. *)
Theorem id_line_starts_fresh_record s v :
  ∃ s',
    record_tag "id" v s = Ok s' ∧
    current_record s' = Some v ∧
    current_stanza_type s' = current_stanza_type s ∧
    od_get v (obo_records_dict s') = Some (<["id" := Single v]> ∅) ∧
    (∀ k, k ≠ v → od_get k (obo_records_dict s') = od_get k (obo_records_dict s)) ∧
    od_keys (obo_records_dict s')
    = if od_mem v (obo_records_dict s) then od_keys (obo_records_dict s)
      else od_keys (obo_records_dict s) ++ [v].
Proof.
  destruct s as [st sty cur]. unfold record_tag.
  rewrite bool_decide_eq_true_2 by done.
  cbn [current_record obo_records_dict current_stanza_type].
  rewrite od_get_set_eq. unfold only_one_allowed.
  rewrite bool_decide_eq_true_2 by left. rewrite lookup_empty, od_set_set.
  eexists. split_and!; [done | done | done | ..];
    cbn [current_record obo_records_dict current_stanza_type].
  - apply od_get_set_eq.
  - intros k Hk. by apply od_get_set_ne.
  - unfold od_mem. destruct (od_get v st) as [r|] eqn:Hget.
    + by eapply od_keys_set_Some.
    + by apply od_keys_set_None.
Qed.

Lemma well_typed_with_children l r :
  well_typed_record r → well_typed_record (with_children l r).
Proof.
  intros Hr. destruct l as [|x l]; [done|]. cbn [with_children].
  apply well_typed_insert; [done|].
  replace (only_one_allowed "children") with false by done. eauto.
Qed.

Lemma well_formed_extend ext st :
  well_formed_store st → well_formed_store (extend_children ext st).
Proof.
  intros [Hnd Hty]. split; [by rewrite od_keys_extend|].
  intros k r. rewrite od_get_extend.
  destruct (od_get k st) as [r0|] eqn:Hget; [|done].
  intros [= <-]. apply well_typed_with_children. by eapply Hty.
Qed.

Lemma parse_obo_format_returns lines s :
  parse_lines lines initial_parser_state = Ok s →
  ∃ st,
    parse_obo_format lines = Ok (st, dangling_links (obo_records_dict s)) ∧
    well_formed_store st ∧
    children_are_lists st ∧
    od_keys st = od_keys (obo_records_dict s).
Proof.
  intros Hparse. pose proof (parse_lines_well_formed _ _ Hparse) as Hwf.
  exists (extend_children (derived_children (obo_records_dict s)) (obo_records_dict s)).
  assert (well_formed_store
            (extend_children (derived_children (obo_records_dict s)) (obo_records_dict s)))
    as Hwf' by (by apply well_formed_extend).
  split_and!; [| done | by apply well_formed_children_are_lists | apply od_keys_extend].
  unfold parse_obo_format. rewrite Hparse. cbn [obind].
  apply compute_children_column_spec; [apply Hwf | by apply well_formed_children_are_lists].
Qed.

(** X5.  When the loop over the lines completes, [parse_obo_format]
    returns: the children column never raises on what the loop built.  The
    store it returns has the documented shape: distinct keys, a string
    under each of the tags that occur once per stanza, a list under every
    other tag, ['children'] included; and the log holds exactly the parent
    links that lead outside the store. *)
Theorem parse_obo_format_shape lines s :
  parse_lines lines initial_parser_state = Ok s →
  ∃ st,
    parse_obo_format lines = Ok (st, dangling_links (obo_records_dict s)) ∧
    well_formed_store st ∧
    children_are_lists st ∧
    od_keys st = od_keys (obo_records_dict s).
Proof. apply parse_obo_format_returns. Qed.

Lemma parse_obo_format_shape_witness :
  ∃ st,
    parse_obo_format retinal_coloboma_lines
    = Ok (st, dangling_links
                [("HP:0000480",
                  <["is_a" := Multi ["HP:0000479"]]>
                    (<["name" := Single "Retinal coloboma"]>
                       (<["id" := Single "HP:0000480"]> ∅)))]) ∧
    well_formed_store st ∧
    children_are_lists st ∧
    od_keys st = ["HP:0000480"].
Proof. exact (parse_obo_format_shape _ _ retinal_coloboma_parse_lines). Defined.

(** ** Comments never reach the store *)

Lemma contains_split_head_other c c' s :
  contains c' s = false → contains c' (Py.split_head c s) = false.
Proof.
  induction s as [|a s IH]; simpl; [done|].
  intros [Ha Hs]%orb_false_iff. destruct (Ascii.eqb a c); [done|].
  simpl. by rewrite Ha, IH.
Qed.

Lemma contains_lstrip cs c s :
  contains c s = false → contains c (Py.lstrip cs s) = false.
Proof.
  induction s as [|a s IH]; [done|]. cbn [Py.lstrip].
  destruct (Py.mem a cs); [|done]. cbn [contains].
  intros [_ Hs]%orb_false_iff. by apply IH.
Qed.

Lemma contains_rstrip cs c s :
  contains c s = false → contains c (Py.rstrip cs s) = false.
Proof.
  induction s as [|a s IH]; [done|]. cbn [Py.rstrip contains].
  intros [Ha Hs]%orb_false_iff. specialize (IH Hs).
  destruct (Py.rstrip cs s) as [|b t].
  - destruct (Py.mem a cs); [done|]. cbn. by rewrite Ha.
  - cbn [contains] in *. by rewrite Ha, IH.
Qed.

Lemma contains_strip cs c s :
  contains c s = false → contains c (Py.strip cs s) = false.
Proof. intros Hs. unfold Py.strip. by apply contains_rstrip, contains_lstrip. Qed.

(** The tag and the value that a line gives are free of the comment
    delimiter, and the tag is free of colons. *)
Lemma parse_tag_line_clean line tag value :
  parse_tag_line line = Ok (Some (tag, value)) →
  contains "!" tag = false ∧ contains ":" tag = false ∧ contains "!" value = false.
Proof.
  unfold parse_tag_line. case_bool_decide; [done|].
  destruct (match_tag_and_value _) as [[tag0 v]|] eqn:Hmatch; [|done].
  intros [= -> <-].
  apply match_tag_and_value_Some in Hmatch as (Heq & _ & Hcolon & _).
  pose proof (contains_split_head "!" (Py.rstrip [Py.newline] line)) as Hbang.
  rewrite Heq, contains_append in Hbang.
  apply orb_false_iff in Hbang as [Htag Hv].
  split_and!; [done | done |]. apply contains_strip.
  change (":" +:+ v) with (String ":" v) in Hv. cbn [contains] in Hv.
  by apply orb_false_iff in Hv as [_ Hv].
Qed.

Lemma parse_line_cases line s s' :
  parse_line line s = Ok s' →
  obo_records_dict s' = obo_records_dict s ∨
  ∃ tag value,
    parse_tag_line line = Ok (Some (tag, value)) ∧ record_tag tag value s = Ok s'.
Proof.
  unfold parse_line. destruct (Py.startswith "[" line).
  { intros [= <-]. by left. }
  destruct (negb _).
  { intros [= <-]. by left. }
  intros ([[tag value]|] & Hline & Hrec)%obind_Ok.
  - right. eauto.
  - injection Hrec as <-. by left.
Qed.

Lemma comment_free_set st k r :
  comment_free st → contains "!" k = false →
  (∀ tag v, r !! tag = Some v →
     contains "!" tag = false ∧ contains ":" tag = false ∧
     ∀ t, t ∈ value_texts v → contains "!" t = false) →
  comment_free (od_set k r st).
Proof.
  intros Hst Hk Hr k' r'. rewrite od_get_set. case_decide as Hkk.
  - intros [= <-]. subst k'. done.
  - apply Hst.
Qed.

Lemma parse_lines_comment_free lines : ∀ s s',
  comment_free (obo_records_dict s) →
  (∀ cur, current_record s = Some cur → contains "!" cur = false) →
  parse_lines lines s = Ok s' → comment_free (obo_records_dict s').
Proof.
  induction lines as [|line lines IH]; intros s s' Hfree Hcur; cbn [parse_lines].
  { by intros [= <-]. }
  intros (s1 & Hline & Hrest)%obind_Ok.
  assert (∀ cur, current_record s1 = Some cur → contains "!" cur = false) as Hcur1.
  { unfold parse_line in Hline. destruct (Py.startswith "[" line).
    { injection Hline as <-. apply Hcur. }
    destruct (negb _); [injection Hline as <-; apply Hcur|].
    apply obind_Ok in Hline as ([[tag value]|] & Hline & Hrec).
    - destruct (record_tag_inv _ _ _ _ Hrec)
        as (_ & cur & rec & v & Hc & _ & [(-> & -> & ->)|(_ & Hc0 & _)] & _);
        intros cur' Hcur'; rewrite Hc in Hcur'; injection Hcur' as <-.
      + by apply parse_tag_line_clean in Hline as (_ & _ & ?).
      + by apply Hcur.
    - injection Hrec as <-. apply Hcur. }
  apply (IH s1); [|done|done].
  destruct (parse_line_cases _ _ _ Hline) as [->|(tag & value & Htag & Hrec)]; [done|].
  apply parse_tag_line_clean in Htag as (Hbang & Hcolon & Hvalue).
  destruct (record_tag_inv _ _ _ _ Hrec)
    as (_ & cur & rec & v & Hc & -> & Hcase & Hv).
  assert (contains "!" cur = false ∧
          ∀ tag' v', rec !! tag' = Some v' →
            contains "!" tag' = false ∧ contains ":" tag' = false ∧
            ∀ t, t ∈ value_texts v' → contains "!" t = false) as [Hkey Hrec0].
  { destruct Hcase as [(-> & -> & ->)|(_ & Hc0 & Hget)].
    - split; [done|]. intros tag' v'. by rewrite lookup_empty.
    - split; [by apply Hcur | by apply (Hfree cur)]. }
  apply comment_free_set; [done | done |].
  intros tag' v'. rewrite lookup_insert. case_decide as Heq; [|by apply Hrec0].
  subst tag'. intros [= <-]. split_and!; [done | done |].
  destruct (only_one_allowed tag).
  - destruct Hv as [_ ->]. by intros t ->%list_elem_of_singleton.
  - destruct Hv as (l & -> & Hl). intros t [Ht|Ht%list_elem_of_singleton]%elem_of_app;
      [|by subst t].
    destruct Hl as [[_ ->]|Hl]; [by apply elem_of_nil in Ht|].
    by apply (Hrec0 tag (Multi l) Hl).
Qed.

(** X6.  No comment reaches the store: in the store that
    [parse_obo_format] returns no key, no tag and no value, the derived
    ['children'] included, contains the delimiter ['!'], and no tag
    contains a colon. *)
Theorem parsed_store_is_comment_free lines st log :
  parse_obo_format lines = Ok (st, log) → comment_free st.
Proof.
  intros (s & Hparse & Hcolumn)%obind_Ok.
  pose proof (parse_lines_well_formed _ _ Hparse) as Hwf.
  pose proof (well_formed_children_are_lists _ Hwf) as Hlists.
  assert (comment_free (obo_records_dict s)) as Hfree.
  { apply (parse_lines_comment_free lines initial_parser_state); [by intros k r | done | done]. }
  rewrite compute_children_column_spec in Hcolumn by (done || apply Hwf).
  injection Hcolumn as <- _.
  intros k r'. rewrite od_get_extend.
  destruct (od_get k (obo_records_dict s)) as [r|] eqn:Hget; [|done].
  intros [= <-]. destruct (Hfree k r Hget) as [Hk Hr]. split; [done|].
  intros tag v.
  destruct (derived_children (obo_records_dict s) k) as [|c cs] eqn:Hderived; [apply Hr|].
  cbn [with_children]. rewrite lookup_insert. case_decide as Htag; [|apply Hr].
  subst tag. intros [= <-]. split_and!; [done | done |].
  intros t [Ht|Ht]%elem_of_app.
  - destruct (Hlists k r Hget) as [Hnone|[l Hl]].
    + unfold children_of in Ht. rewrite Hnone in Ht. by apply elem_of_nil in Ht.
    + unfold children_of in Ht. rewrite Hl in Ht. by apply (Hr "children" (Multi l) Hl).
  - rewrite <- Hderived in Ht.
    apply elem_of_derived_children in Ht as (rc & Hc & _); [|apply Hwf].
    by apply (Hfree t rc).
Qed.

Lemma parsed_store_is_comment_free_witness : comment_free diamond_store.
Proof. exact (parsed_store_is_comment_free diamond_lines diamond_store [] diamond_parse). Defined.

(** ** The root walk on any store *)

Lemma root_walk_step fuel st t :
  root_walk (S fuel) st t =
  match od_get t st with
  | None => Raise (KeyError t)
  | Some r =>
      match first_parent st t with
      | None => Ok t
      | Some p =>
          if od_mem p st then root_walk fuel st p else Raise (parent_not_found t p)
      end
  end.
Proof.
  cbn [root_walk]. unfold first_parent, parents_of.
  destruct (od_get t st) as [r|] eqn:Hget; [|done]. cbn.
  destruct (r !! "is_a") as [v|]; [|done].
  destruct (iter_value v) as [|p ps]; [done|]. cbn.
  unfold _confirm_id_is_valid. by destruct (od_mem p st).
Qed.

Lemma root_walk_sound st : ∀ fuel t t',
  root_walk fuel st t = Ok t' →
  rtc (walks_to st) t t' ∧ is_Some (od_get t' st) ∧ first_parent st t' = None.
Proof.
  induction fuel as [|fuel IH]; intros t t'; [done|].
  rewrite root_walk_step. destruct (od_get t st) as [r|] eqn:Hget; [|done].
  destruct (first_parent st t) as [p|] eqn:Hp.
  - destruct (od_mem p st); [|done]. intros (Hreach & Hrest)%IH.
    split; [|done]. by eapply rtc_l.
  - intros [= <-]. split_and!; [done | by eexists | done].
Qed.

Lemma root_walk_diverges st (cycle : string → Prop) :
  (∀ x, cycle x → ∃ p, first_parent st x = Some p ∧ cycle p) →
  ∀ fuel t, cycle t → root_walk fuel st t = OutOfFuel.
Proof.
  intros Hcycle. induction fuel as [|fuel IH]; intros t Ht; [done|].
  rewrite root_walk_step. destruct (Hcycle t Ht) as (p & Hp & Hcp).
  rewrite Hp. destruct (od_get t st) as [r|] eqn:Hget.
  2:{ unfold first_parent in Hp. by rewrite Hget in Hp. }
  destruct (Hcycle p Hcp) as (q & Hq & _).
  unfold od_mem. destruct (od_get p st) as [rp|] eqn:Hgetp.
  - by apply IH.
  - unfold first_parent in Hq. by rewrite Hgetp in Hq.
Qed.

(** X7.  On every store: an id that [_compute_root_id] returns is a key of
    the store without a first parent, reached from the first key by
    moving from a record to its first ['is_a'] value, whatever the other
    parents are; and when the first key lies in a set of ids each of
    which has its first parent in the set (the walk runs into a cycle),
    the function returns for no amount of fuel: the loop does not end. *)
Theorem compute_root_id_on_any_store st :
  (∀ fuel t', _compute_root_id fuel st = Ok (Some t') →
     ∃ t0, head (od_keys st) = Some t0 ∧
           rtc (walks_to st) t0 t' ∧
           is_Some (od_get t' st) ∧ first_parent st t' = None) ∧
  (∀ (cycle : string → Prop) t0,
     head (od_keys st) = Some t0 → cycle t0 →
     (∀ x, cycle x → ∃ p, first_parent st x = Some p ∧ cycle p) →
     ∀ fuel, _compute_root_id fuel st = OutOfFuel).
Proof.
  split.
  - intros fuel t'. destruct st as [|[t0 r0] st]; [done|].
    cbn [_compute_root_id]. intros (t & Hwalk & [= <-])%omap_Ok.
    exists t0. split; [done|]. by eapply root_walk_sound.
  - intros cycle t0 Hhead Ht0 Hcycle fuel. destruct st as [|[t r0] st]; [done|].
    injection Hhead as ->. cbn [_compute_root_id].
    by rewrite (root_walk_diverges _ cycle Hcycle).
Qed.

Lemma cyclic_store_cycle :
  ∀ x, x ∈ ["X"; "Y"] → ∃ p, first_parent cyclic_store x = Some p ∧ p ∈ ["X"; "Y"].
Proof.
  intros x [->|[->|[]%elem_of_nil]%elem_of_cons]%elem_of_cons.
  - exists "Y". split; [reflexivity | right; left].
  - exists "X". split; [reflexivity | left].
Qed.

Lemma compute_root_id_on_any_store_witness :
  (∀ fuel, _compute_root_id fuel cyclic_store = OutOfFuel) ∧
  ∃ t0, head (od_keys xyz_store) = Some t0 ∧
        rtc (walks_to xyz_store) t0 "Z" ∧
        is_Some (od_get "Z" xyz_store) ∧ first_parent xyz_store "Z" = None.
Proof.
  split.
  - exact (proj2 (compute_root_id_on_any_store cyclic_store)
             (λ x, x ∈ ["X"; "Y"]) "X" eq_refl (list_elem_of_here "X" ["Y"])
             cyclic_store_cycle).
  - exact (proj1 (compute_root_id_on_any_store xyz_store) 4 "Z" eq_refl).
Defined.

(** ** The children column, run again and read as a graph *)

Lemma derived_children_extend ext k : ∀ st0,
  derived_children (extend_children ext st0) k = derived_children st0 k.
Proof.
  unfold derived_children, extend_children.
  induction st0 as [|[c rc] st0 IH]; [done|]. csimpl. rewrite IH. f_equal.
  unfold declared_links. cbn. by rewrite with_children_other.
Qed.

Lemma children_are_lists_extend ext st :
  children_are_lists st → children_are_lists (extend_children ext st).
Proof.
  intros Hst k r'. rewrite od_get_extend.
  destruct (od_get k st) as [r|] eqn:Hget; [|done]. intros [= <-].
  destruct (ext k) as [|x l]; [by eapply Hst|]. right. cbn [with_children].
  rewrite lookup_insert_eq. eauto.
Qed.

(** X8.  [_compute_children_column] is not to be run twice: a second run on
    the store of the first appends every derived child once more, so each
    record ends with its former children followed by its derived children
    twice. *)
Theorem children_column_twice st :
  NoDup (od_keys st) → children_are_lists st →
  ∃ st1 st2 log1 log2,
    _compute_children_column st = Ok (st1, log1) ∧
    _compute_children_column st1 = Ok (st2, log2) ∧
    ∀ k r, od_get k st = Some r →
      ∃ r1 r2, od_get k st1 = Some r1 ∧ od_get k st2 = Some r2 ∧
        children_of r1 = children_of r ++ derived_children st k ∧
        children_of r2 = children_of r ++ derived_children st k ++ derived_children st k.
Proof.
  intros Hnd Hlists.
  set (st1 := extend_children (derived_children st) st).
  assert (NoDup (od_keys st1)) as Hnd1 by (unfold st1; by rewrite od_keys_extend).
  assert (children_are_lists st1) as Hlists1 by (by apply children_are_lists_extend).
  exists st1, (extend_children (derived_children st1) st1),
    (dangling_links st), (dangling_links st1).
  split_and!; [by apply compute_children_column_spec..|].
  intros k r Hget.
  assert (od_get k st1 = Some (with_children (derived_children st k) r)) as Hget1
    by (unfold st1; by rewrite od_get_extend, Hget).
  eexists _, _. split_and!; [done | by rewrite od_get_extend, Hget1 | |].
  - apply children_of_with_children. by eapply Hlists.
  - rewrite children_of_with_children by (by eapply Hlists1).
    rewrite children_of_with_children by (by eapply Hlists).
    unfold st1 at 1. by rewrite derived_children_extend, <- (assoc_L (++)).
Qed.

Lemma dangling_store_is_dict :
  NoDup (od_keys dangling_store) ∧ children_are_lists dangling_store.
Proof.
  split.
  - apply (bool_decide_unpack _). vm_compute. exact I.
  - apply children_are_lists_Forall. repeat constructor.
Qed.

Lemma children_column_twice_witness :
  ∃ st1 st2 log1 log2,
    _compute_children_column dangling_store = Ok (st1, log1) ∧
    _compute_children_column st1 = Ok (st2, log2) ∧
    ∀ k r, od_get k dangling_store = Some r →
      ∃ r1 r2, od_get k st1 = Some r1 ∧ od_get k st2 = Some r2 ∧
        children_of r1 = children_of r ++ derived_children dangling_store k ∧
        children_of r2 = children_of r ++ derived_children dangling_store k
                                       ++ derived_children dangling_store k.
Proof.
  exact (children_column_twice dangling_store
           (proj1 dangling_store_is_dict) (proj2 dangling_store_is_dict)).
Defined.

Lemma tc_flip {A} (R R' : relation A) x y :
  (∀ a b, R a b → R' b a) → tc R x y → tc R' y x.
Proof.
  intros Hflip. induction 1 as [x y Hxy|x y z Hxy _ IH].
  - by apply tc_once, Hflip.
  - eapply tc_r; [done | by apply Hflip].
Qed.

Lemma parsed_children_graph lines s :
  parse_lines lines initial_parser_state = Ok s →
  (∀ k r, od_get k (obo_records_dict s) = Some r → r !! "children" = None) →
  ∃ st log,
    parse_obo_format lines = Ok (st, log) ∧
    (∀ p c, child_edge st p c ↔ is_Some (od_get p st) ∧ parent_edge st c p) ∧
    children_closed st ∧
    (is_a_acyclic st → children_acyclic st).
Proof.
  intros Hparse Hnone.
  destruct (parse_obo_format_returns _ _ Hparse) as (st & Hrun & _ & _ & _).
  pose proof (parse_lines_well_formed _ _ Hparse) as Hwf.
  pose proof (well_formed_children_are_lists _ Hwf) as Hlists.
  assert (st = extend_children (derived_children (obo_records_dict s)) (obo_records_dict s))
    as Hst.
  { unfold parse_obo_format in Hrun. rewrite Hparse in Hrun. cbn [obind] in Hrun.
    rewrite compute_children_column_spec in Hrun by (done || apply Hwf).
    by injection Hrun as <-. }
  assert (∀ p c, child_edge st p c ↔ is_Some (od_get p st) ∧ parent_edge st c p) as Hiff.
  { intros p c. unfold child_edge, parent_edge. rewrite Hst. setoid_rewrite od_get_extend.
    split.
    - intros (r' & Hget & Hc).
      destruct (od_get p (obo_records_dict s)) as [r|] eqn:Hp; [|done].
      injection Hget as <-. split; [by eexists|].
      rewrite children_of_with_children in Hc by (by eapply Hlists).
      unfold children_of in Hc at 1. rewrite (Hnone p r Hp) in Hc. cbn in Hc.
      apply elem_of_derived_children in Hc as (rc & Hgetc & Hpc); [|apply Hwf].
      exists (with_children (derived_children (obo_records_dict s) c) rc).
      rewrite Hgetc. split; [done|]. unfold parents_of in *.
      by rewrite with_children_other.
    - intros ([r' Hget] & rc' & Hgetc & Hpc).
      destruct (od_get p (obo_records_dict s)) as [r|] eqn:Hp; [|done].
      destruct (od_get c (obo_records_dict s)) as [rc|] eqn:Hc; [|done].
      injection Hgetc as <-. injection Hget as <-. eexists. split; [done|].
      rewrite children_of_with_children by (by eapply Hlists).
      apply elem_of_app. right. apply elem_of_derived_children; [apply Hwf|].
      exists rc. split; [done|]. unfold parents_of in *.
      by rewrite with_children_other in Hpc. }
  exists st, (dangling_links (obo_records_dict s)).
  split_and!; [done | done | |].
  - intros p c (_ & rc & Hgetc & _)%Hiff. by eexists.
  - intros Hacyclic x Hx. apply (Hacyclic x).
    apply (tc_flip (child_edge st)); [|done]. intros a b Hab. by apply Hiff.
Qed.

(** X9.  For input that declares no [children] tag, the children graph of
    the store that [parse_obo_format] returns is the parent graph turned
    round and cut to the store: [c] is a child of [p] exactly when [p] is
    a key and one of the ['is_a'] values of [c].  So every child id is a
    key, which is what the traversals need to return, and the children
    graph has no cycle when the parent graph has none. *)
Theorem parsed_children_invert_parents lines s :
  parse_lines lines initial_parser_state = Ok s →
  (∀ k r, od_get k (obo_records_dict s) = Some r → r !! "children" = None) →
  ∃ st log,
    parse_obo_format lines = Ok (st, log) ∧
    (∀ p c, child_edge st p c ↔ is_Some (od_get p st) ∧ parent_edge st c p) ∧
    children_closed st ∧
    (is_a_acyclic st → children_acyclic st).
Proof. apply parsed_children_graph. Qed.

Lemma diamond_parse_lines :
  parse_lines diamond_lines initial_parser_state
  = Ok (mk_parser_state diamond_parsed (Some "Term") (Some "D")).
Proof. vm_compute. reflexivity. Qed.

Lemma diamond_parsed_no_children :
  ∀ k r, od_get k diamond_parsed = Some r → r !! "children" = None.
Proof.
  intros k r Hget%od_get_Some_elem.
  repeat (apply elem_of_cons in Hget as [[= -> ->]|Hget]; [reflexivity|]).
  by apply elem_of_nil in Hget.
Qed.

Lemma parsed_children_invert_parents_witness :
  ∃ st log,
    parse_obo_format diamond_lines = Ok (st, log) ∧
    (∀ p c, child_edge st p c ↔ is_Some (od_get p st) ∧ parent_edge st c p) ∧
    children_closed st ∧
    (is_a_acyclic st → children_acyclic st).
Proof.
  exact (parsed_children_invert_parents diamond_lines
           (mk_parser_state diamond_parsed (Some "Term") (Some "D"))
           diamond_parse_lines diamond_parsed_no_children).
Defined.

(** ** What the category stamps change for the traversal *)

Lemma traverse_same_graph st st' :
  (∀ k, children_ids st' k = children_ids st k) →
  (∀ k, is_Some (od_get k st') ↔ is_Some (od_get k st)) →
  ∀ fuel queue seen, traverse fuel None st' queue seen = traverse fuel None st queue seen.
Proof.
  intros Hchildren Hpresent. induction fuel as [|fuel IH]; intros queue seen; [done|].
  destruct queue as [|x queue]; [done|]. rewrite !traverse_cons.
  specialize (Hchildren x). specialize (Hpresent x). unfold children_ids in Hchildren.
  destruct (od_get x st') as [r'|], (od_get x st) as [r|].
  - rewrite Hchildren. unfold skipped. rewrite !orb_false_r.
    destruct (bool_decide (x ∈ seen)); [apply IH | by rewrite IH].
  - destruct (proj1 Hpresent) as [? [=]]. by eexists.
  - destruct (proj2 Hpresent) as [? [=]]. by eexists.
  - done.
Qed.

Lemma get_substree_same_except st st' fuel' root' :
  same_except category_tags st st' →
  get_substree fuel' st' root' None = get_substree fuel' st root' None.
Proof.
  intros Hsame.
  pose proof (same_except_present _ _ _ root' Hsame) as Hroot.
  destruct (od_get root' st) as [r|] eqn:Hget.
  - rewrite !get_substree_traverse by (by (apply Hroot; eexists) || by eexists).
    apply traverse_same_graph.
    + intros k. by eapply same_except_children_ids, children_not_category.
    + intros k. by eapply same_except_present.
  - pose proof (same_except_None _ _ _ _ Hsame Hget) as Hget'.
    unfold get_substree, for_in_substree, _confirm_id_is_valid, od_mem.
    by rewrite Hget, Hget'.
Qed.

(** X10.  The category stamps do not change what a traversal without skip
    predicate yields: on the store that [compute_category_column] returns,
    [get_substree] gives from every root the result it gives on the store
    before, the same ids in the same order or the same exception. *)
Theorem get_substree_ignores_stamps fuel st root add_id add_name st' :
  compute_category_column fuel st root add_id add_name = Ok st' →
  ∀ fuel' root', get_substree fuel' st' root' None = get_substree fuel' st root' None.
Proof.
  intros Hsame%compute_category_column_same_except fuel' root'.
  by apply get_substree_same_except.
Qed.

Lemma get_substree_ignores_stamps_witness :
  get_substree 10 diamond_stamped "A" None = get_substree 10 diamond_store "A" None.
Proof.
  exact (get_substree_ignores_stamps 10 diamond_store "A" true true diamond_stamped
           diamond_categories 10 "A").
Defined.

(** The stamped records after the loop, in terms of the graph. *)
Lemma category_loop_assigned fuel a b st0 :
  a || b = true → children_closed st0 →
  ∀ cs done st st' trace,
    same_except category_tags st0 st →
    (∀ k, assigned st k = true ↔ ∃ c', c' ∈ done ∧ rtc (child_edge st0) c' k) →
    category_loop fuel a b cs st = Ok (st', trace) →
    ∀ k, assigned st' k = true ↔ ∃ c', c' ∈ done ++ cs ∧ rtc (child_edge st0) c' k.
Proof.
  intros Hab Hclosed0. induction cs as [|c cs IH]; intros done st st' trace Hsame0 Hassigned.
  { intros [= <- <-] k. by rewrite app_nil_r. }
  intros Hrun k. pose proof Hrun as Hrun0.
  rewrite category_loop_cons in Hrun. destruct (od_get c st) as [rc|] eqn:Hc; [|done].
  apply obind_Ok in Hrun
    as ([st1 ys] & Hpass & ([st2 trace'] & Hrest & [= <- <-])%obind_Ok).
  pose proof (for_in_substree_same_except category_tags _ _ _ _ _ _ _
                (λ r tag, stamp_other a b c _ r tag) Hpass) as Hsame.
  destruct (category_pass_spec _ _ _ _ _ _ _ _ Hpass) as (_ & _ & _ & _ & Hiff & Hget1).
  pose proof (category_loop_reach fuel a b st0 Hab Hclosed0 (c :: cs) done st st2
                ((c, ys) :: trace') Hsame0 Hassigned Hrun0 0 c ys eq_refl) as Hys.
  rewrite (IH (done ++ [c]) st1 st2 trace'); [by rewrite <- (assoc_L (++)) | | | done].
  - by eapply same_except_trans.
  - intros k'. unfold assigned, skipped. rewrite Hget1.
    case_bool_decide as Hin.
    + destruct (clean_reach_present _ _ _ _ (proj1 (Hiff k') Hin)) as [[r Hr] _].
      rewrite Hr. simpl. rewrite stamp_assigned by done.
      split; [|done]. intros _. exists c. split; [apply elem_of_app; right; left|].
      by apply Hys.
    + fold (skipped (Some is_category_already_assigned) st k'). fold (assigned st k').
      rewrite Hassigned. split.
      * intros (c' & Hc' & Hreach). exists c'. split; [apply elem_of_app; by left | done].
      * intros (c' & [Hc'|Hc'%list_elem_of_singleton]%elem_of_app & Hreach); [by eauto|].
        subst c'. destruct (assigned st k') eqn:Hk; [by apply Hassigned|].
        exfalso. apply Hin, Hys. split; [done|]. rewrite take_0, app_nil_r.
        intros c' Hc' Hc'k. assert (assigned st k' = true) by (apply Hassigned; eauto).
        congruence.
Qed.

(** X11.  On a store without category stamps whose children are all keys,
    a run of [compute_category_column] with at least one flag stamps
    exactly the descendants of the root's children: afterwards a record
    carries a stamp if and only if it is reachable via ['children'] links
    from a direct child of the root. *)
Theorem stamped_iff_descendant fuel st root add_id add_name st' :
  add_id || add_name = true → children_closed st →
  (∀ k, assigned st k = false) →
  compute_category_column fuel st root add_id add_name = Ok st' →
  ∀ k, assigned st' k = true ↔
       ∃ c, c ∈ children_ids st root ∧ rtc (child_edge st) c k.
Proof.
  intros Hab Hclosed Hnone Hrun k.
  destruct (compute_category_column_Ok_inv _ _ _ _ _ _ Hrun) as (_ & trace & Hloop).
  rewrite (category_loop_assigned fuel add_id add_name st Hab Hclosed
             (children_ids st root) [] st st' trace (same_except_refl _ _)); [done | | done].
  intros k'. rewrite Hnone. split; [done|]. by intros (c' & ?%elem_of_nil & _).
Qed.

Lemma stamped_iff_descendant_witness :
  assigned diamond_stamped "D" = true ↔
  ∃ c, c ∈ children_ids diamond_store "A" ∧ rtc (child_edge diamond_store) c "D".
Proof.
  exact (stamped_iff_descendant 10 diamond_store "A" true true diamond_stamped
           eq_refl diamond_closed diamond_unstamped diamond_categories "D").
Defined.

(** ** The columns of the table *)

Lemma elem_of_all_tags (records : list record) t :
  t ∈ (⋃ (dom <$> records) : gset string) ↔ ∃ r, r ∈ records ∧ is_Some (r !! t).
Proof.
  rewrite elem_of_union_list. split.
  - intros (X & (r & -> & Hr)%list_elem_of_fmap & Ht). exists r. split; [done|].
    by apply elem_of_dom.
  - intros (r & Hr & Ht). exists (dom r). split; [|by apply elem_of_dom].
    apply list_elem_of_fmap. by exists r.
Qed.

(** X12.  The header that [_compute_tsv_header] returns starts with ['id']
    and ['name'], whether or not any record has them; after them come, in
    increasing order and each once, exactly the tags that some record
    holds and that are neither excluded from the table nor ['id'] or
    ['name'].  No column occurs twice. *)
Theorem tsv_header_columns records :
  ∃ rest,
    _compute_tsv_header records = "id" :: "name" :: rest ∧
    StronglySorted String.le rest ∧
    NoDup ("id" :: "name" :: rest) ∧
    ∀ t, t ∈ rest ↔
         (∃ r, r ∈ records ∧ is_Some (r !! t)) ∧
         (t ∉ EXCLUDE_FROM_TSV) ∧ t ≠ "id" ∧ t ≠ "name".
Proof.
  unfold _compute_tsv_header.
  set (tags := (⋃ (dom <$> records) ∖ list_to_set EXCLUDE_FROM_TSV
                  ∖ list_to_set ["id"; "name"] : gset string)).
  exists (merge_sort String.le (elements tags)).
  assert (∀ t, t ∈ merge_sort String.le (elements tags) ↔
               (∃ r, r ∈ records ∧ is_Some (r !! t)) ∧
               (t ∉ EXCLUDE_FROM_TSV) ∧ t ≠ "id" ∧ t ≠ "name") as Hiff.
  { intros t. rewrite merge_sort_Permutation, elem_of_elements. unfold tags.
    rewrite !elem_of_difference, elem_of_all_tags, !elem_of_list_to_set.
    rewrite !elem_of_cons, elem_of_nil. tauto. }
  split_and!; [done | apply StronglySorted_merge_sort; apply _ | | done].
  repeat (apply NoDup_cons; split).
  - intros [[=]|Hin%Hiff]%elem_of_cons. tauto.
  - intros Hin%Hiff. tauto.
  - rewrite merge_sort_Permutation. apply NoDup_elements.
Qed.

(** ** The conversion as a whole *)

(** X13.  An input without terms cannot be converted: when the parse gives
    an empty store, [convert_obo_to_tsv] raises the lookup error for the
    root id, whether a root id was given or is to be computed (then it is
    [None]), with or without the category column; nothing is written. *)
Theorem convert_without_terms_raises fuel lines log root_id add_category_column :
  parse_obo_format lines = Ok ([], log) →
  convert_obo_to_tsv fuel lines root_id add_category_column
  = Raise (ValueError ("root_id '" +:+ default "None" root_id
                       +:+ "' not found in ontology")).
Proof.
  intros Hparse. unfold convert_obo_to_tsv. rewrite Hparse. cbn [obind].
  by destruct root_id as [root|].
Qed.

Lemma header_and_typedef_parse :
  parse_obo_format header_and_typedef_lines = Ok ([], []).
Proof. vm_compute. reflexivity. Qed.

Lemma convert_without_terms_raises_witness :
  convert_obo_to_tsv 10 header_and_typedef_lines None true
  = Raise (ValueError "root_id 'None' not found in ontology").
Proof.
  exact (convert_without_terms_raises 10 header_and_typedef_lines [] None true
           header_and_typedef_parse).
Defined.











(** ** A child id that is no key *)

(** With fuel beyond the queue and the children still to come, the
    traversal ends, with a list or with the [KeyError] of an id that is no
    key. *)
Lemma traverse_ends skip st : ∀ fuel queue seen,
  length queue + pending st seen < fuel →
  (∃ ys, traverse fuel skip st queue seen = Ok ys) ∨
  (∃ c, traverse fuel skip st queue seen = Raise (KeyError c) ∧ od_get c st = None).
Proof.
  induction fuel as [|fuel IH]; intros queue seen Hfuel; [lia|].
  destruct queue as [|x queue].
  { left. exists []. apply traverse_nil. }
  rewrite traverse_cons. destruct (od_get x st) as [r|] eqn:Hget.
  2:{ right. by exists x. }
  destruct (bool_decide (x ∈ seen) || skipped skip st x) eqn:Hdiscard.
  - apply IH. simpl in Hfuel. lia.
  - apply orb_false_iff in Hdiscard as [Hseen%bool_decide_eq_false _].
    destruct (IH (queue ++ children_of r) ({[x]} ∪ seen)) as [[ys Hys]|(c & Hc & Hnone)].
    + pose proof (pending_process _ _ _ _ Hget Hseen).
      rewrite length_app. simpl in Hfuel. lia.
    + left. exists (x :: ys). by rewrite Hys.
    + right. exists c. by rewrite Hc.
Qed.

(** X15.  When a record that the traversal reaches names a child that is
    not a key of the store, [get_substree] raises: with a root id of the
    store and fuel beyond the number of children links, the outcome is the
    [KeyError] of an id missing from the store, and no list of records. *)
Theorem get_substree_missing_child_raises fuel st root skip y c :
  is_Some (od_get root st) → S (total_children st) < fuel →
  clean_reach skip st root y → child_edge st y c → od_get c st = None →
  ∃ c', get_substree fuel st root skip = Raise (KeyError c') ∧ od_get c' st = None.
Proof.
  intros Hroot Hfuel Hreach Hedge Hnone. rewrite get_substree_traverse by done.
  destruct (traverse_ends skip st fuel [root] ∅) as [[ys Hys]|Hraise]; [|exfalso|done].
  { unfold total_children in Hfuel. simpl. lia. }
  destruct (traverse_spec _ _ _ _ _ _ Hys) as (_ & _ & _ & Hchildren).
  destruct (traverse_root_spec _ _ _ _ _ Hys) as [_ Hiff].
  destruct (Hchildren y c (proj2 (Hiff y) Hreach) Hedge) as [[r Hr] _]. congruence.
Qed.

Lemma broken_child_store_edge : child_edge broken_child_store "R" "M".
Proof.
  exists (<["children" := Multi ["B"; "M"]]> (<["id" := Single "R"]> ∅)).
  split; [reflexivity|]. change ("M" ∈ ["B"; "M"]). right. left.
Qed.

Lemma broken_child_store_fuel : S (total_children broken_child_store) < 10.
Proof. vm_compute. lia. Qed.

Lemma get_substree_missing_child_raises_witness :
  ∃ c', get_substree 10 broken_child_store "R" None = Raise (KeyError c') ∧
        od_get c' broken_child_store = None.
Proof.
  exact (get_substree_missing_child_raises 10 broken_child_store "R" None "R" "M"
           (ex_intro _ _ eq_refl) broken_child_store_fuel
           (clean_reach_refl None broken_child_store "R" (ex_intro _ _ eq_refl) eq_refl)
           broken_child_store_edge eq_refl).
Defined.

(** ** Top-level categories *)

Lemma unassigned_lookup st k r :
  assigned st k = false → od_get k st = Some r →
  r !! "category_id" = None ∧ r !! "category_name" = None.
Proof.
  unfold assigned, skipped. intros Hk Hget. rewrite Hget in Hk.
  unfold is_category_already_assigned in Hk.
  apply orb_false_iff in Hk as [Hid%bool_decide_eq_false Hname%bool_decide_eq_false].
  split; apply eq_None_not_Some; done.
Qed.

(** The stamp of a direct child of the root that descends from no child
    listed before it is the one of its own pass. *)
Lemma root_child_stamp fuel st root add_id add_name st' i c :
  add_id || add_name = true → children_closed st →
  (∀ k, assigned st k = false) →
  compute_category_column fuel st root add_id add_name = Ok st' →
  children_ids st root !! i = Some c →
  (∀ c', c' ∈ take i (children_ids st root) → ¬ rtc (child_edge st) c' c) →
  ∃ r, od_get c st = Some r ∧
       od_get c st' = Some (stamp add_id add_name c (category_name_of st c) r).
Proof.
  intros Hab Hclosed Hnone Hrun Hi Hfirst.
  destruct (compute_category_column_Ok_inv _ _ _ _ _ _ Hrun) as (_ & trace & Hloop).
  destruct (category_loop_trace _ _ _ Hab _ _ _ _ Hloop) as (Hfst & _ & _ & Hstamps & _).
  assert (∃ ys, trace !! i = Some (c, ys)) as [ys Hys].
  { rewrite <- Hfst, list_lookup_fmap in Hi.
    destruct (trace !! i) as [[c0 ys]|]; [|done]. injection Hi as ->. by exists ys. }
  apply (Hstamps c ys c); [by eapply list_elem_of_lookup_2|].
  assert (∀ k, assigned st k = true ↔ ∃ c', c' ∈ [] ∧ rtc (child_edge st) c' k) as Hdone.
  { intros k. rewrite Hnone. split; [done|]. by intros (c' & ?%elem_of_nil & _). }
  apply (category_loop_reach fuel add_id add_name st Hab Hclosed
           (children_ids st root) [] st st' trace (same_except_refl _ _)
           Hdone Hloop i c ys Hys c).
  by split.
Qed.

(** X16.  A direct child of the root is its own category unless it
    descends from a child listed before it: on a store without stamps
    whose children are all keys, after a run of [compute_category_column]
    with at least one flag, the record of such a child holds its own id
    under ['category_id'] when ids are asked for and nothing there
    otherwise, its own ['name'] value (the empty string if it has none)
    under ['category_name'] when names are asked for and nothing there
    otherwise, and what it held before under every other tag. *)
Theorem root_child_is_its_own_category fuel st root add_id add_name st' i c :
  add_id || add_name = true → children_closed st →
  (∀ k, assigned st k = false) →
  compute_category_column fuel st root add_id add_name = Ok st' →
  children_ids st root !! i = Some c →
  (∀ c', c' ∈ take i (children_ids st root) → ¬ rtc (child_edge st) c' c) →
  ∃ r r', od_get c st = Some r ∧ od_get c st' = Some r' ∧
    r' !! "category_id" = (if add_id then Some (Single c) else None) ∧
    r' !! "category_name"
    = (if add_name then Some (default (Single "") (r !! "name")) else None) ∧
    ∀ tag, tag ≠ "category_id" → tag ≠ "category_name" → r' !! tag = r !! tag.
Proof.
  intros Hab Hclosed Hnone Hrun Hi Hfirst.
  destruct (root_child_stamp _ _ _ _ _ _ _ _ Hab Hclosed Hnone Hrun Hi Hfirst)
    as (r & Hr & Hr').
  destruct (unassigned_lookup _ _ _ (Hnone c) Hr) as [Hid Hname].
  exists r, (stamp add_id add_name c (category_name_of st c) r).
  assert (category_name_of st c = default (Single "") (r !! "name")) as Hcat
    by (unfold category_name_of; by rewrite Hr).
  split_and!; [done | done | | |].
  - destruct add_id; [apply stamp_category_id|].
    unfold stamp. destruct add_name; [|done]. by rewrite lookup_insert_ne.
  - destruct add_name; [by rewrite stamp_category_name, Hcat|].
    unfold stamp. destruct add_id; [|done]. by rewrite lookup_insert_ne.
  - intros tag Hne1 Hne2. apply stamp_other.
    unfold category_tags. by intros [->|[->|?%elem_of_nil]%elem_of_cons]%elem_of_cons.
Qed.

Lemma diamond_C_first :
  ∀ c', c' ∈ take 1 (children_ids diamond_store "A") →
        ¬ rtc (child_edge diamond_store) c' "C".
Proof.
  intros c' Hc' Hreach. change (c' ∈ ["B"]) in Hc'.
  apply list_elem_of_singleton in Hc' as ->.
  apply rtc_inv in Hreach as [[=]|(y & (r & Hget & Hy) & Hrest)].
  injection Hget as <-. change (y ∈ ["D"]) in Hy.
  apply list_elem_of_singleton in Hy as ->.
  apply rtc_inv in Hrest as [[=]|(z & (r & Hget & Hz) & _)].
  injection Hget as <-. change (z ∈ []) in Hz. by apply elem_of_nil in Hz.
Qed.

Lemma root_child_is_its_own_category_witness :
  ∃ r r', od_get "C" diamond_store = Some r ∧ od_get "C" diamond_stamped = Some r' ∧
    r' !! "category_id" = Some (Single "C") ∧
    r' !! "category_name" = Some (default (Single "") (r !! "name")) ∧
    ∀ tag, tag ≠ "category_id" → tag ≠ "category_name" → r' !! tag = r !! tag.
Proof.
  exact (root_child_is_its_own_category 10 diamond_store "A" true true diamond_stamped
           1 "C" eq_refl diamond_closed diamond_unstamped diamond_categories eq_refl
           diamond_C_first).
Defined.

(** ** The warnings of the children column *)

Lemma elem_of_dangling_links st x p :
  NoDup (od_keys st) →
  (x, p) ∈ dangling_links st ↔ parent_edge st x p ∧ od_get p st = None.
Proof.
  intros Hnd. unfold dangling_links, parent_edge. rewrite list_elem_of_bind. split.
  - intros ([x' r] & Hin & Hitem). unfold dangling_of in Hin. cbn in Hin.
    destruct (r !! "is_a") as [v|] eqn:Hisa; [|by apply elem_of_nil in Hin].
    apply list_elem_of_fmap in Hin as (p' & [= -> ->] & [Hp Hp']%list_elem_of_filter).
    split; [|done]. exists r. split; [by apply od_get_NoDup|].
    unfold parents_of. by rewrite Hisa.
  - intros [(r & Hget & Hp) Hnone]. exists (x, r). split; [|by apply od_get_Some_elem].
    unfold dangling_of, parents_of in *. cbn.
    destruct (r !! "is_a") as [v|]; [|by apply elem_of_nil in Hp].
    apply list_elem_of_fmap. exists p. split; [done|]. by apply list_elem_of_filter.
Qed.

(** X17.  The log of [_compute_children_column] on an ordered dictionary
    whose ['children'] values are lists holds a warning for a term and a
    parent id exactly when that id is an ['is_a'] value of the term and no
    key of the store; so the run logs nothing exactly when no parent link
    dangles. *)
Theorem children_column_warnings st :
  NoDup (od_keys st) → children_are_lists st →
  ∃ st' log,
    _compute_children_column st = Ok (st', log) ∧
    (∀ x p, (x, p) ∈ log ↔ parent_edge st x p ∧ od_get p st = None) ∧
    (log = [] ↔ parents_closed st).
Proof.
  intros Hnd Hlists.
  exists (extend_children (derived_children st) st), (dangling_links st).
  split_and!; [by apply compute_children_column_spec | |].
  - intros x p. by apply elem_of_dangling_links.
  - split.
    + intros Hlog x p Hedge. destruct (od_get p st) as [r|] eqn:Hp; [by eexists|].
      assert ((x, p) ∈ dangling_links st) as Hin by (by apply elem_of_dangling_links).
      rewrite Hlog in Hin. by apply elem_of_nil in Hin.
    + intros Hclosed. destruct (dangling_links st) as [|[x p] log] eqn:Hlog; [done|].
      assert ((x, p) ∈ dangling_links st) as Hin by (rewrite Hlog; left).
      apply elem_of_dangling_links in Hin as [Hedge Hnone]; [|done].
      destruct (Hclosed x p Hedge) as [r Hr]. congruence.
Qed.

Lemma children_column_warnings_witness :
  ∃ st' log,
    _compute_children_column dangling_store = Ok (st', log) ∧
    (∀ x p, (x, p) ∈ log ↔
            parent_edge dangling_store x p ∧ od_get p dangling_store = None) ∧
    (log = [] ↔ parents_closed dangling_store).
Proof.
  exact (children_column_warnings dangling_store
           (proj1 dangling_store_is_dict) (proj2 dangling_store_is_dict)).
Defined.

(** ** Tags that may repeat *)

Lemma values_of_cons tag line lines :
  values_of tag (line :: lines)
  = match parse_tag_line line with
    | Ok (Some (t, v)) => if bool_decide (t = tag) then v :: values_of tag lines
                          else values_of tag lines
    | _ => values_of tag lines
    end.
Proof.
  unfold values_of. cbn [base.omap list_omap].
  destruct (parse_tag_line line) as [[[t v]|]| |]; [|done..].
  by case_bool_decide.
Qed.

(** X18.  The values of a tag that may repeat are collected in the order
    of the lines: when the parsing loop, inside a [Term] stanza with a
    current record, reads lines that hold no stanza header and no [id:]
    line without raising, the current record stays the same and ends
    with, under such a tag, the values it held followed by the values of
    the tag's lines in line order; a tag without line keeps what it
    had. *)
Theorem repeated_tag_values_keep_line_order tag lines : ∀ s s' cur rec,
  current_stanza_type s = Some "Term" → current_record s = Some cur →
  od_get cur (obo_records_dict s) = Some rec →
  only_one_allowed tag = false →
  Forall body_line lines →
  parse_lines lines s = Ok s' →
  current_stanza_type s' = Some "Term" ∧ current_record s' = Some cur ∧
  ∃ rec', od_get cur (obo_records_dict s') = Some rec' ∧
          rec' !! tag = match values_of tag lines with
                        | [] => rec !! tag
                        | vs => Some (Multi (multi_values rec tag ++ vs))
                        end.
Proof.
  induction lines as [|line lines IH]; intros s s' cur rec Hterm Hcur Hrec Hmulti Hbody.
  { intros [= <-]. split_and!; [done..|]. by exists rec. }
  apply Forall_cons in Hbody as [[Hhead Hid] Hbody].
  cbn [parse_lines]. intros (s1 & Hline & Hrest)%obind_Ok.
  rewrite values_of_cons.
  unfold parse_line in Hline. rewrite Hhead, Hterm in Hline.
  rewrite bool_decide_eq_true_2 in Hline by done. cbn [negb] in Hline.
  apply obind_Ok in Hline as (res & Hparse & Hrec1). rewrite Hparse.
  destruct res as [[t v]|]; [|injection Hrec1 as <-; by apply (IH s s' cur rec)].
  assert (t ≠ "id") as Ht by (intros ->; by apply (Hid v)).
  destruct s as [st sty cur0]. cbn in Hterm, Hcur, Hrec. subst sty cur0.
  unfold record_tag in Hrec1. rewrite bool_decide_eq_false_2 in Hrec1 by done.
  cbn [current_record obo_records_dict current_stanza_type] in Hrec1.
  rewrite Hrec in Hrec1.
  destruct (only_one_allowed t) eqn:Hone.
  { destruct (rec !! t) as [held|] eqn:Hheld; [done|]. injection Hrec1 as <-.
    assert (t ≠ tag) as Hne by (intros ->; congruence).
    rewrite bool_decide_eq_false_2 by done.
    destruct (IH (mk_parser_state _ _ _) s' cur (<[t := Single v]> rec) eq_refl eq_refl
                (od_get_set_eq _ _ _) Hmulti Hbody Hrest)
      as (Hsty & Hcur' & rec' & Hget & Hval).
    split_and!; [done..|]. exists rec'. split; [done|].
    unfold multi_values in *. by rewrite lookup_insert_ne in Hval. }
  assert (∃ l, (rec !! t = None ∧ l = [] ∨ rec !! t = Some (Multi l)) ∧
               s1 = mk_parser_state (od_set cur (<[t := Multi (l ++ [v])]> rec) st)
                      (Some "Term") (Some cur)) as (l & Hheld & ->).
  { destruct (rec !! t) as [[held|l]|] eqn:Hheld; [done| |].
    - injection Hrec1 as <-. exists l. split; [by right | done].
    - injection Hrec1 as <-. exists []. split; [by left | done]. }
  destruct (IH (mk_parser_state _ _ _) s' cur (<[t := Multi (l ++ [v])]> rec) eq_refl eq_refl
              (od_get_set_eq _ _ _) Hmulti Hbody Hrest)
    as (Hsty & Hcur' & rec' & Hget & Hval).
  split_and!; [done..|]. exists rec'. split; [done|].
  case_bool_decide as Htag.
  - subst t. unfold multi_values in *. rewrite lookup_insert_eq in Hval.
    rewrite Hval. assert (multi_values rec tag = l) as Hl.
    { unfold multi_values. by destruct Hheld as [[-> ->]| ->]. }
    unfold multi_values in Hl. rewrite Hl.
    destruct (values_of tag lines) as [|v' vs]; [done|].
    by rewrite <- app_assoc.
  - unfold multi_values in *. by rewrite lookup_insert_ne in Hval.
Qed.

Lemma xref_body_lines_parse :
  Forall body_line xref_body_lines ∧
  parse_lines xref_body_lines xref_state
  = Ok (mk_parser_state
          [("T", <["xref" := Multi ["UMLS:1"; "MSH:2"]]>
                   (<["name" := Single "n"]> (<["id" := Single "T"]> ∅)))]
          (Some "Term") (Some "T")).
Proof.
  split; [|by vm_compute].
  repeat apply Forall_cons_2; [..|apply Forall_nil_2];
    (split; [by vm_compute|]); intros v; by vm_compute.
Qed.

Lemma repeated_tag_values_keep_line_order_witness :
  ∃ rec',
    od_get "T" [("T", <["xref" := Multi ["UMLS:1"; "MSH:2"]]>
                        (<["name" := Single "n"]> (<["id" := Single "T"]> ∅)))]
    = Some rec' ∧
    rec' !! "xref" = Some (Multi ["UMLS:1"; "MSH:2"]).
Proof.
  exact (proj2 (proj2 (repeated_tag_values_keep_line_order "xref" xref_body_lines
                         xref_state _ "T" (<["id" := Single "T"]> ∅)
                         eq_refl eq_refl eq_refl eq_refl
                         (proj1 xref_body_lines_parse) (proj2 xref_body_lines_parse)))).
Defined.
